(** * parser.py: the scenario builder and its context stack

    A shallow embedding of [src/parser.py].  Python objects live in a
    store; a reference is an index into it, so that the aliasing between
    the tree hanging under [base] and the builder's [current_fragment],
    [current_group] and [state_stack] is the one the Python code has.
    The store grows at its end, hence it also records creation order.

    What the builder prints is not part of the model; the attribute
    reads its [print] calls make are, since reading [name] from [None]
    raises.  Python integers are unbounded: ids and counters are in [Z]. *)

From Stdlib Require Import ZArith Lia.
From stdpp Require Import base list list_numbers strings pretty.

#[local] Set Warnings "-register-all".

(** ** Objects and the store *)

(** A reference to an object: its index in the store. *)
Definition loc := nat.

(** The four classes of the module.  The constant [type] attribute is
    [obj_type] below. *)
Inductive obj :=
| Message (id : Z) (exchanged_items : list string)
| State (id : Z) (state_info : string)
| Group (id : Z) (name : string) (guard : option string) (items : list loc)
| Fragment (id : Z) (name : string) (groups : list loc).

Definition obj_type (o : obj) : string :=
  match o with
  | Message _ _ => "message"
  | State _ _ => "state"
  | Group _ _ _ _ => "group"
  | Fragment _ _ _ => "fragment"
  end.

Definition obj_id (o : obj) : Z :=
  match o with
  | Message i _ | State i _ | Group i _ _ _ | Fragment i _ _ => i
  end.

(** The [name] attribute exists on groups and fragments only. *)
Definition obj_name (o : obj) : option string :=
  match o with
  | Group _ n _ _ | Fragment _ n _ => Some n
  | _ => None
  end.

(** The references an object holds: a group's items, a fragment's groups. *)
Definition children (o : obj) : list loc :=
  match o with
  | Group _ _ _ its => its
  | Fragment _ _ gs => gs
  | _ => []
  end.

Inductive kind := KEvent | KGroup | KFragment.

Definition kind_of (o : obj) : kind :=
  match o with
  | Message _ _ | State _ _ => KEvent
  | Group _ _ _ _ => KGroup
  | Fragment _ _ _ => KFragment
  end.

Global Instance kind_eq_dec : EqDecision kind.
Proof. solve_decision. Defined.

Global Instance obj_eq_dec : EqDecision obj.
Proof. solve_decision. Defined.

(** ** The builder *)

Record ScenarioBuilder := mkBuilder {
  heap : list obj;
  base : list loc;
  current_fragment : option loc;
  current_group : option loc;
  state_stack : list (option loc * option loc);
  event_counter : Z;
  group_counter : Z;
  fragment_counter : Z
}.

(** [ScenarioBuilder.__init__] *)
Definition init : ScenarioBuilder :=
  {| heap := []; base := [];
     current_fragment := None; current_group := None;
     state_stack := [];
     event_counter := 1%Z; group_counter := 1%Z; fragment_counter := 1%Z |}.

Definition set_heap (h : list obj) (s : ScenarioBuilder) :=
  mkBuilder h (base s) (current_fragment s) (current_group s) (state_stack s)
            (event_counter s) (group_counter s) (fragment_counter s).
Definition set_base (b : list loc) (s : ScenarioBuilder) :=
  mkBuilder (heap s) b (current_fragment s) (current_group s) (state_stack s)
            (event_counter s) (group_counter s) (fragment_counter s).
Definition set_current_fragment (f : option loc) (s : ScenarioBuilder) :=
  mkBuilder (heap s) (base s) f (current_group s) (state_stack s)
            (event_counter s) (group_counter s) (fragment_counter s).
Definition set_current_group (g : option loc) (s : ScenarioBuilder) :=
  mkBuilder (heap s) (base s) (current_fragment s) g (state_stack s)
            (event_counter s) (group_counter s) (fragment_counter s).
Definition set_state_stack (k : list (option loc * option loc)) (s : ScenarioBuilder) :=
  mkBuilder (heap s) (base s) (current_fragment s) (current_group s) k
            (event_counter s) (group_counter s) (fragment_counter s).
Definition set_event_counter (n : Z) (s : ScenarioBuilder) :=
  mkBuilder (heap s) (base s) (current_fragment s) (current_group s) (state_stack s)
            n (group_counter s) (fragment_counter s).
Definition set_group_counter (n : Z) (s : ScenarioBuilder) :=
  mkBuilder (heap s) (base s) (current_fragment s) (current_group s) (state_stack s)
            (event_counter s) n (fragment_counter s).
Definition set_fragment_counter (n : Z) (s : ScenarioBuilder) :=
  mkBuilder (heap s) (base s) (current_fragment s) (current_group s) (state_stack s)
            (event_counter s) (group_counter s) n.

(** ** Exceptions and the monad of builder methods *)

(** The module raises [Exception(msg)]; reading an attribute an object
    does not have raises [AttributeError]. *)
Inductive exn :=
| Exception (msg : string)
| AttributeError.

(** A call either returns a value or raises; in both cases the builder is
    left in some state, which the caller keeps using. *)
Inductive outcome (A : Type) :=
| Returned (v : A) (s : ScenarioBuilder)
| Raised (e : exn) (s : ScenarioBuilder).
Arguments Returned {A} v s.
Arguments Raised {A} e s.

Definition outcome_state {A} (r : outcome A) : ScenarioBuilder :=
  match r with Returned _ s | Raised _ s => s end.

Definition M (A : Type) : Type := ScenarioBuilder → outcome A.

Definition ret {A} (v : A) : M A := λ s, Returned v s.
Definition bind {A B} (m : M A) (k : A → M B) : M B :=
  λ s, match m s with
       | Returned v s' => k v s'
       | Raised e s' => Raised e s'
       end.
Definition raise {A} (e : exn) : M A := λ s, Raised e s.
Definition gets {A} (f : ScenarioBuilder → A) : M A := λ s, Returned (f s) s.
Definition modify (f : ScenarioBuilder → ScenarioBuilder) : M unit :=
  λ s, Returned tt (f s).

Declare Scope py_scope.
Delimit Scope py_scope with py.
Notation "x <- m ;; k" := (bind m (λ x, k))
  (at level 100, m at next level, right associativity) : py_scope.
Notation "m ;;; k" := (bind m (λ _, k))
  (at level 100, right associativity) : py_scope.
Local Open Scope py_scope.

(** Constructing an object: it gets the next free reference. *)
Definition new (o : obj) : M loc :=
  λ s, Returned (length (heap s)) (set_heap (heap s ++ [o]) s).

(** [x.name]; [x] ranges over Python values, [None] included. *)
Definition get_name (x : option loc) : M string :=
  λ s, match x with
       | Some l =>
           match heap s !! l with
           | Some o =>
               match obj_name o with
               | Some n => Returned n s
               | None => Raised AttributeError s
               end
           | None => Raised AttributeError s
           end
       | None => Raised AttributeError s
       end.

(** [Group.add_item]: only groups have the method. *)
Definition add_item (g item : loc) : M unit :=
  λ s, match heap s !! g with
       | Some (Group i n gd its) =>
           Returned tt (set_heap (<[g := Group i n gd (its ++ [item])]> (heap s)) s)
       | _ => Raised AttributeError s
       end.

(** [Fragment.add_group]: only fragments have the method. *)
Definition add_group (f group : loc) : M unit :=
  λ s, match heap s !! f with
       | Some (Fragment i n gs) =>
           Returned tt (set_heap (<[f := Fragment i n (gs ++ [group])]> (heap s)) s)
       | _ => Raised AttributeError s
       end.

(** [list.pop()]: the last element and the list without it. *)
Definition list_pop {A} (l : list A) : option (list A * A) :=
  match reverse l with
  | [] => None
  | x :: r => Some (reverse r, x)
  end.

Definition msg_no_group_event : string :=
  "Error: In a fragment but no group is active. Call enter_group() first.".
Definition msg_no_group_fragment : string :=
  "Error: Cannot attach a new fragment because no active group exists.".
Definition msg_no_fragment : string :=
  "Error: Cannot enter a group when not inside a fragment.".
Definition msg_empty_stack : string :=
  "Error: No fragment to exit from.".

(** The three error kinds, as the messages that carry them. *)
Definition NoActiveGroup (e : exn) : Prop :=
  e = Exception msg_no_group_event ∨ e = Exception msg_no_group_fragment.
Definition NoActiveFragment (e : exn) : Prop := e = Exception msg_no_fragment.
Definition EmptyContextStack (e : exn) : Prop := e = Exception msg_empty_stack.

(** The body shared by [add_message], [add_state], which differ in the
    object they construct only. *)
Definition add_event (ev : obj) : M loc :=
  event <- new ev;;
  modify (λ s, set_event_counter (event_counter s + 1)%Z s);;;
  cf <- gets current_fragment;;
  match cf with
  | None =>
      modify (λ s, set_base (base s ++ [event]) s);;;
      ret event
  | Some _ =>
      cg <- gets current_group;;
      match cg with
      | None => raise (Exception msg_no_group_event)
      | Some g =>
          add_item g event;;;
          _ <- get_name cg;;
          _ <- get_name cf;;
          ret event
      end
  end.

Definition add_message (exchanged_items : list string) : M loc :=
  c <- gets event_counter;;
  add_event (Message c exchanged_items).

Definition add_state (state_info : string) : M loc :=
  c <- gets event_counter;;
  add_event (State c state_info).

Definition enter_fragment : M loc :=
  c <- gets fragment_counter;;
  frag <- new (Fragment c ("Fragment " +:+ pretty c) []);;
  modify (λ s, set_fragment_counter (fragment_counter s + 1)%Z s);;;
  cf <- gets current_fragment;;
  match cf with
  | None => modify (λ s, set_base (base s ++ [frag]) s)
  | Some _ =>
      cg <- gets current_group;;
      match cg with
      | None => raise (Exception msg_no_group_fragment)
      | Some g => add_item g frag
      end
  end;;;
  modify (λ s, set_state_stack (state_stack s ++ [(current_fragment s, current_group s)]) s);;;
  modify (set_current_fragment (Some frag));;;
  modify (set_current_group None);;;
  ret frag.

Definition enter_group (guard : option string) : M loc :=
  cf <- gets current_fragment;;
  match cf with
  | None => raise (Exception msg_no_fragment)
  | Some f =>
      c <- gets group_counter;;
      group <- new (Group c ("Group " +:+ pretty c) guard []);;
      modify (λ s, set_group_counter (group_counter s + 1)%Z s);;;
      add_group f group;;;
      modify (set_current_group (Some group));;;
      _ <- get_name (Some f);;
      ret group
  end.

Definition exit_fragment : M unit :=
  k <- gets state_stack;;
  match list_pop k with
  | None => raise (Exception msg_empty_stack)
  | Some (k', (prev_fragment, prev_group)) =>
      modify (set_state_stack k');;;
      cf <- gets current_fragment;;
      _ <- get_name cf;;
      _ <- match prev_fragment with
           | Some _ => get_name prev_fragment
           | None => ret "BASE"
           end;;
      modify (set_current_fragment prev_fragment);;;
      modify (set_current_group prev_group)
  end.

Definition get_scenario : M (list loc) := gets base.

(** ** Sequences of calls *)

Inductive op :=
| AddMessage (exchanged_items : list string)
| AddState (state_info : string)
| EnterFragment
| EnterGroup (guard : option string)
| ExitFragment.

(** One call; the value is the node the call returns, if it returns one. *)
Definition exec (o : op) : M (option loc) :=
  match o with
  | AddMessage its => l <- add_message its;; ret (Some l)
  | AddState info => l <- add_state info;; ret (Some l)
  | EnterFragment => l <- enter_fragment;; ret (Some l)
  | EnterGroup guard => l <- enter_group guard;; ret (Some l)
  | ExitFragment => exit_fragment;;; ret None
  end.

(** A caller that goes on after an exception keeps the builder as the
    failed call left it. *)
Definition run (ops : list op) (s : ScenarioBuilder) : ScenarioBuilder :=
  foldl (λ s o, outcome_state (exec o s)) s ops.

(** A caller that lets the first exception through: the state after the
    calls when all of them return. *)
Fixpoint run_ok (ops : list op) (s : ScenarioBuilder) : option ScenarioBuilder :=
  match ops with
  | [] => Some s
  | o :: ops =>
      match exec o s with
      | Returned _ s' => run_ok ops s'
      | Raised _ _ => None
      end
  end.

Definition reachable (s : ScenarioBuilder) : Prop := ∃ ops, run ops init = s.

(** The driver under [if __name__ == "__main__"], up to [get_scenario]. *)
Definition main : M (list loc) :=
  add_message ["data1"; "data2"];;;
  add_message ["data3"; "data4"];;;
  enter_fragment;;;
  enter_group (Some "x > 5");;;
  add_message ["data5"];;;
  add_state "Processing";;;
  enter_group (Some "x <= 5");;;
  add_message ["data6"; "data7"];;;
  exit_fragment;;;
  add_message ["data8"];;;
  get_scenario.

(** ** Reading the model back *)

(** The tree under a reference, references followed through the store. *)
Inductive tree :=
| TMessage (id : Z) (exchanged_items : list string)
| TState (id : Z) (state_info : string)
| TGroup (id : Z) (name : string) (guard : option string) (items : list tree)
| TFragment (id : Z) (name : string) (groups : list tree).

Fixpoint view (fuel : nat) (h : list obj) (l : loc) : option tree :=
  match fuel with
  | O => None
  | S fuel =>
      match h !! l with
      | None => None
      | Some (Message i x) => Some (TMessage i x)
      | Some (State i x) => Some (TState i x)
      | Some (Group i n gd its) => TGroup i n gd <$> mapM (view fuel h) its
      | Some (Fragment i n gs) => TFragment i n <$> mapM (view fuel h) gs
      end
  end.

(** The ids given to the objects of one kind, in creation order. *)
Definition ids_of (k : kind) (h : list obj) : list Z :=
  obj_id <$> filter (λ o, kind_of o = k) h.

Definition counter_of (k : kind) (s : ScenarioBuilder) : Z :=
  match k with
  | KEvent => event_counter s
  | KGroup => group_counter s
  | KFragment => fragment_counter s
  end.

(** The kind of node a call constructs, if it gets that far. *)
Definition op_kind (o : op) : option kind :=
  match o with
  | AddMessage _ | AddState _ => Some KEvent
  | EnterFragment => Some KFragment
  | EnterGroup _ => Some KGroup
  | ExitFragment => None
  end.

(** A node is attached when some container holds it: the root sequence,
    a group's items or a fragment's groups. *)
Definition attached (s : ScenarioBuilder) (l : loc) : Prop :=
  l ∈ base s ∨ ∃ p o, heap s !! p = Some o ∧ l ∈ children o.

(** [attached], decided. *)
Definition attachedb (s : ScenarioBuilder) (l : loc) : bool :=
  bool_decide (l ∈ base s) ||
  existsb (λ o, bool_decide (l ∈ children o)) (heap s).

(** The ids of the attached nodes of one kind, in creation order. *)
Definition attached_ids (k : kind) (s : ScenarioBuilder) : list Z :=
  omap (λ lo : loc * obj,
          if decide (kind_of lo.2 = k)
          then if attachedb s lo.1 then Some (obj_id lo.2) else None
          else None)
       (imap pair (heap s)).

(** ** Entered and not yet exited

    Independently of the builder's own bookkeeping, the fragments that
    were entered and not exited since, innermost first, each with the
    group entered last in it. *)
Definition track (o : op) (r : outcome (option loc)) (open : list (loc * option loc))
  : list (loc * option loc) :=
  match o, r with
  | EnterFragment, Returned (Some f) _ => (f, None) :: open
  | EnterGroup _, Returned (Some g) _ =>
      match open with
      | (f, _) :: rest => (f, Some g) :: rest
      | [] => []
      end
  | ExitFragment, Returned _ _ => tail open
  | _, _ => open
  end.

Definition run_track (ops : list op) : ScenarioBuilder * list (loc * option loc) :=
  foldl (λ st o, let r := exec o st.1 in (outcome_state r, track o r st.2)) (init, []) ops.

(** The context in force inside the open fragments [open]. *)
Definition ctx_of (open : list (loc * option loc)) : option loc * option loc :=
  match open with
  | [] => (None, None)
  | (f, g) :: _ => (Some f, g)
  end.

(** What entering the open fragments, outermost first, has saved. *)
Fixpoint saved (open : list (loc * option loc)) : list (option loc * option loc) :=
  match open with
  | [] => []
  | _ :: rest => saved rest ++ [ctx_of rest]
  end.

(** ** Rendering *)

Fixpoint str_mul (s : string) (n : nat) : string :=
  match n with
  | O => EmptyString
  | S n => s +:+ str_mul s n
  end.

(** [str] of a Python list of already rendered elements. *)
Definition repr_list (rs : list string) : string :=
  "[" +:+ String.concat ", " rs +:+ "]".

(** [guard_str] in [Group.__repr__]. *)
Definition guard_repr (guard : option string) : string :=
  match guard with
  | Some g => ", guard=" +:+ g
  | None => EmptyString
  end.

(** [guard_str] in [print_scenario]. *)
Definition guard_label (guard : option string) : string :=
  match guard with
  | Some g => " [Guard: " +:+ g +:+ "]"
  | None => EmptyString
  end.

Section Rendering.
(** Python's built-in [repr] on [str]; the module takes it from the
    language. *)
Variable repr_str : string → string.

(** The [__repr__] methods.  [None] when the fuel runs out or the
    reference is outside the store. *)
Fixpoint repr (fuel : nat) (h : list obj) (l : loc) : option string :=
  match fuel with
  | O => None
  | S fuel =>
      match h !! l with
      | None => None
      | Some (Message i its) =>
          Some ("Message(" +:+ pretty i +:+ ", " +:+ repr_list (repr_str <$> its) +:+ ")")
      | Some (State i info) =>
          Some ("State(" +:+ pretty i +:+ ", " +:+ info +:+ ")")
      | Some (Group i n gd its) =>
          rs ← mapM (repr fuel h) its;
          Some (n +:+ "(items=" +:+ repr_list rs +:+ guard_repr gd +:+ ")")
      | Some (Fragment i n gs) =>
          rs ← mapM (repr fuel h) gs;
          Some (n +:+ "(groups=" +:+ repr_list rs +:+ ")")
      end
  end.

(** The header line of a branch. *)
Definition group_line (spacer name : string) (guard : option string) : string :=
  spacer +:+ "  * " +:+ name +:+ guard_label guard +:+ " (Group):".

(** [print_scenario]: the lines printed.  [None] when the fuel runs
    out, a reference is outside the store, or an element of
    [item.groups] has no [guard], [name] and [items]. *)
Fixpoint print_scenario (fuel : nat) (h : list obj) (items : list loc) (indent : nat)
  : option (list string) :=
  match fuel with
  | O => None
  | S fuel =>
      let spacer := str_mul "  " indent in
      (λ ls, concat ls) <$> mapM (λ item,
        match h !! item with
        | None => None
        | Some (Message _ _) | Some (State _ _) =>
            r ← repr (S fuel) h item;
            Some [spacer +:+ "- " +:+ r]
        | Some (Fragment _ n gs) =>
            body ← mapM (λ group,
              match h !! group with
              | Some (Group _ gn gd its) =>
                  sub ← print_scenario fuel h its (indent + 3);
                  Some (group_line spacer gn gd :: sub)
              | _ => None
              end) gs;
            Some ((spacer +:+ "- " +:+ n +:+ " (Fragment):") :: concat body)
        | Some (Group _ _ _ _) =>
            r ← repr (S fuel) h item;
            Some [spacer +:+ "- Unknown item: " +:+ r]
        end) items
  end.
End Rendering.

(** ** Invariants of the store and of the context *)

Definition is_fragment (h : list obj) (l : loc) : Prop :=
  ∃ i n gs, h !! l = Some (Fragment i n gs).

Definition is_group (h : list obj) (l : loc) : Prop :=
  ∃ i n gd its, h !! l = Some (Group i n gd its).

(** What may sit in a root sequence or among a group's items. *)
Definition is_item (h : list obj) (l : loc) : Prop :=
  ∃ o, h !! l = Some o ∧ kind_of o ≠ KGroup.

(** Group [g] is one of the groups of fragment [f]. *)
Definition group_of (h : list obj) (f g : loc) : Prop :=
  ∃ i n gs, h !! f = Some (Fragment i n gs) ∧ g ∈ gs.

(** A (fragment, group) pair as the builder holds it. *)
Definition ctx_ok (h : list obj) (c : option loc * option loc) : Prop :=
  match c with
  | (None, None) => True
  | (Some f, None) => is_fragment h f
  | (Some f, Some g) => group_of h f g ∧ is_group h g
  | (None, Some _) => False
  end.

(** The saved pairs: the top level at the bottom, then (fragment, group)
    pairs with both components present. *)
Definition stack_ok (h : list obj) (cf : option loc) (k : list (option loc * option loc)) : Prop :=
  match k with
  | [] => cf = None
  | c :: rest =>
      c = (None, None) ∧ cf ≠ None ∧
      Forall (λ c, (∃ f g, c = (Some f, Some g)) ∧ ctx_ok h c) rest
  end.

(** Every reference held by a container points to an object created
    after the container, of the right class. *)
Definition heap_typed (h : list obj) : Prop :=
  ∀ l o, h !! l = Some o →
    match o with
    | Fragment _ _ gs => Forall (λ c, (l < c)%nat ∧ is_group h c) gs
    | Group _ _ _ its => Forall (λ c, (l < c)%nat ∧ is_item h c) its
    | _ => True
    end.

Definition ids_ok (s : ScenarioBuilder) : Prop :=
  ∀ k, (1 ≤ counter_of k s)%Z ∧ ids_of k (heap s) = seqZ 1 (counter_of k s - 1).

Record wf (s : ScenarioBuilder) : Prop := {
  wf_ctx : ctx_ok (heap s) (current_fragment s, current_group s);
  wf_stack : stack_ok (heap s) (current_fragment s) (state_stack s);
  wf_heap : heap_typed (heap s);
  wf_base : Forall (is_item (heap s)) (base s);
  wf_ids : ids_ok s
}.

(** Objects only ever change by getting one more child. *)
Definition append_child (l : loc) (o : obj) : obj :=
  match o with
  | Group i n gd its => Group i n gd (its ++ [l])
  | Fragment i n gs => Fragment i n (gs ++ [l])
  | _ => o
  end.

Definition obj_ext (o o' : obj) : Prop :=
  match o, o' with
  | Message i x, Message i' x' => i = i' ∧ x = x'
  | State i x, State i' x' => i = i' ∧ x = x'
  | Group i n gd its, Group i' n' gd' its' =>
      i = i' ∧ n = n' ∧ gd = gd' ∧ its `prefix_of` its'
  | Fragment i n gs, Fragment i' n' gs' =>
      i = i' ∧ n = n' ∧ gs `prefix_of` gs'
  | _, _ => False
  end.

Definition heap_ext (h h' : list obj) : Prop :=
  ∀ l o, h !! l = Some o → ∃ o', h' !! l = Some o' ∧ obj_ext o o'.

(** *** The shape of a transition

    What a call does to the store and the root sequence, whether it
    returns or raises. *)
Inductive effect :=
| NoEffect
| Create (o : obj)
| CreateBase (o : obj)
| CreateUnder (o : obj) (p : loc).

(** [o] is the node call [c] constructs in [s]: it has no children yet,
    takes the counter of its kind as id, and advances that counter only. *)
Definition created (c : op) (o : obj) (s s' : ScenarioBuilder) : Prop :=
  children o = [] ∧ op_kind c = Some (kind_of o) ∧
  obj_id o = counter_of (kind_of o) s ∧
  ∀ k, counter_of k s' =
       if decide (kind_of o = k) then (counter_of k s + 1)%Z else counter_of k s.

Definition has_effect (c : op) (eff : effect) (s s' : ScenarioBuilder) : Prop :=
  match eff with
  | NoEffect =>
      heap s' = heap s ∧ base s' = base s ∧ ∀ k, counter_of k s' = counter_of k s
  | Create o =>
      created c o s s' ∧ heap s' = heap s ++ [o] ∧ base s' = base s
  | CreateBase o =>
      created c o s s' ∧ heap s' = heap s ++ [o] ∧
      base s' = base s ++ [length (heap s)]
  | CreateUnder o p =>
      created c o s s' ∧ (p < length (heap s))%nat ∧
      heap s' = alter (append_child (length (heap s))) p (heap s ++ [o]) ∧
      base s' = base s
  end.

(** *** The placement rule

    Where [add_message], [add_state] and [enter_fragment] put the node
    [o] they construct, as a property of the outcome [r] of the call made
    in [s]: on the root sequence at top level, at the end of the current
    group's items inside a group, and an error in a fragment with no
    group. *)
Definition placement (s : ScenarioBuilder) (o : obj) (r : outcome loc) : Prop :=
  let l := length (heap s) in
  match current_fragment s, current_group s with
  | None, _ =>
      ∃ s', r = Returned l s' ∧ heap s' !! l = Some o ∧
            heap s' = heap s ++ [o] ∧ base s' = base s ++ [l]
  | Some f, Some g =>
      ∃ s' i n gd its,
        r = Returned l s' ∧ heap s' !! l = Some o ∧
        heap s !! g = Some (Group i n gd its) ∧
        heap s' = <[g := Group i n gd (its ++ [l])]> (heap s ++ [o]) ∧
        base s' = base s
  | Some f, None => ∃ e s', r = Raised e s' ∧ NoActiveGroup e
  end.

(** *** Nested fragments

    A fragment can only be opened inside another one through a group:
    [nested guards] enters a fragment, then for each guard a group with
    that guard and a further fragment inside it.  It makes
    [S (length guards)] calls of [enter_fragment]. *)
Fixpoint nested (guards : list (option string)) : list op :=
  match guards with
  | [] => [EnterFragment]
  | g :: guards => EnterFragment :: EnterGroup g :: nested guards
  end.

Definition top_level (s : ScenarioBuilder) : Prop :=
  current_fragment s = None ∧ current_group s = None ∧ state_stack s = [].

(** Fragment [f] is neither current nor saved on the stack. *)
Definition inactive (s : ScenarioBuilder) (f : loc) : Prop :=
  current_fragment s ≠ Some f ∧ Forall (λ c, c.1 ≠ Some f) (state_stack s).

(** ** Further notions *)

(** Every reference the model holds: the root sequence, then the children
    of each object, in creation order of the objects. *)
Definition refs (s : ScenarioBuilder) : list loc :=
  base s ++ concat (children <$> heap s).

(** The calls of a sequence that construct a node of kind [k]. *)
Definition calls_of (k : kind) (ops : list op) : list op :=
  filter (λ c, op_kind c = Some k) ops.

(** A list of references in creation order. *)
Definition increasing (cs : list loc) : Prop :=
  ∀ i j a b, (i < j)%nat → cs !! i = Some a → cs !! j = Some b → (a < b)%nat.

(** The child lists of the model: the root sequence, a group's items, a
    fragment's groups. *)
Definition container (s : ScenarioBuilder) (cs : list loc) : Prop :=
  cs = base s ∨ ∃ l o, heap s !! l = Some o ∧ cs = children o.

(** [str] of a list of nodes, the text [print(builder.base)] shows. *)
Definition str_nodes (repr_str : string → string) (fuel : nat) (h : list obj)
    (items : list loc) : option string :=
  repr_list <$> mapM (repr repr_str fuel h) items.

(** ** States used as examples *)

(** Inside "Group 1" of "Fragment 1". *)
Definition in_group_state : ScenarioBuilder :=
  run [EnterFragment; EnterGroup (Some "x > 5")] init.

(** Inside "Fragment 1", before any group is entered. *)
Definition in_fragment_state : ScenarioBuilder :=
  run [AddMessage ["data1"; "data2"]; EnterFragment] init.

(** Python's [repr] on a [str] made of printable characters other than
    quotes and the backslash, as the labels of the driver are. *)
Definition plain_repr (x : string) : string := "'" +:+ x +:+ "'".

(** ** Basic facts *)

Lemma list_pop_nil {A} : list_pop (@nil A) = None.
Proof. reflexivity. Qed.

Lemma list_pop_snoc {A} (l : list A) (x : A) : list_pop (l ++ [x]) = Some (l, x).
Proof. unfold list_pop. by rewrite reverse_snoc, reverse_involutive. Qed.

Lemma list_pop_None {A} (l : list A) : list_pop l = None ↔ l = [].
Proof.
  split; [|by intros ->].
  destruct l as [|x l _] using rev_ind; [done|].
  by rewrite list_pop_snoc.
Qed.

Lemma list_pop_Some {A} (l k : list A) (x : A) :
  list_pop l = Some (k, x) ↔ l = k ++ [x].
Proof.
  split; [|intros ->; apply list_pop_snoc].
  destruct l as [|y l _] using rev_ind; [done|].
  rewrite list_pop_snoc. by intros [= -> ->].
Qed.

Lemma run_snoc ops o s :
  run (ops ++ [o]) s = outcome_state (exec o (run ops s)).
Proof. unfold run. by rewrite foldl_app. Qed.

Lemma run_app ops1 ops2 s : run (ops1 ++ ops2) s = run ops2 (run ops1 s).
Proof. unfold run. by rewrite foldl_app. Qed.

Lemma run_cons o ops s : run (o :: ops) s = run ops (outcome_state (exec o s)).
Proof. reflexivity. Qed.

Lemma reachable_init : reachable init.
Proof. by exists []. Qed.

Lemma reachable_step s o : reachable s → reachable (outcome_state (exec o s)).
Proof. intros [ops <-]. exists (ops ++ [o]). apply run_snoc. Qed.

Lemma reachable_run s ops : reachable s → reachable (run ops s).
Proof. intros [ops0 <-]. exists (ops0 ++ ops). apply run_app. Qed.

Lemma reachable_ind' (P : ScenarioBuilder → Prop) :
  P init →
  (∀ s o, reachable s → P s → P (outcome_state (exec o s))) →
  ∀ s, reachable s → P s.
Proof.
  intros Hi Hs s [ops <-].
  induction ops as [|o ops IH] using rev_ind; [done|].
  rewrite run_snoc. apply Hs; [by exists ops | done].
Qed.

Lemma run_ok_run ops s s' : run_ok ops s = Some s' → run ops s = s'.
Proof.
  revert s. induction ops as [|o ops IH]; intros s.
  - by intros [= ->].
  - rewrite run_cons. cbn [run_ok].
    destruct (exec o s) as [v s1|e s1] eqn:E; [|done].
    apply IH.
Qed.

Lemma run_ok_app ops1 ops2 s :
  run_ok (ops1 ++ ops2) s = run_ok ops1 s ≫= run_ok ops2.
Proof.
  revert s. induction ops1 as [|o ops1 IH]; intros s; simpl; [done|].
  destruct (exec o s); [apply IH | done].
Qed.

(** *** Extension of objects and stores *)

Lemma obj_ext_refl o : obj_ext o o.
Proof. destruct o; simpl; auto. Qed.

Lemma obj_ext_trans o1 o2 o3 : obj_ext o1 o2 → obj_ext o2 o3 → obj_ext o1 o3.
Proof.
  destruct o1, o2; simpl; try done; destruct o3; simpl; try done.
  - intros [-> ->] [-> ->]; auto.
  - intros [-> ->] [-> ->]; auto.
  - intros (-> & -> & -> & ?) (-> & -> & -> & ?). repeat split; auto. by etrans.
  - intros (-> & -> & ?) (-> & -> & ?). repeat split; auto. by etrans.
Qed.

Lemma obj_ext_append l o : obj_ext o (append_child l o).
Proof. destruct o; simpl; repeat split; auto; by apply prefix_app_r. Qed.

Lemma obj_ext_kind o o' : obj_ext o o' → kind_of o' = kind_of o.
Proof. destruct o, o'; simpl; try done. Qed.

Lemma obj_ext_id o o' : obj_ext o o' → obj_id o' = obj_id o.
Proof. destruct o, o'; simpl; try done; intuition congruence. Qed.

Lemma obj_ext_name o o' : obj_ext o o' → obj_name o' = obj_name o.
Proof. destruct o, o'; simpl; try done; intuition congruence. Qed.

Lemma obj_ext_children o o' : obj_ext o o' → children o `prefix_of` children o'.
Proof. destruct o, o'; simpl; try done; tauto. Qed.

Lemma append_child_kind l o : kind_of (append_child l o) = kind_of o.
Proof. by destruct o. Qed.

Lemma append_child_id l o : obj_id (append_child l o) = obj_id o.
Proof. by destruct o. Qed.

Lemma heap_ext_refl h : heap_ext h h.
Proof. intros l o H. exists o. split; [done | apply obj_ext_refl]. Qed.

Lemma heap_ext_trans h1 h2 h3 : heap_ext h1 h2 → heap_ext h2 h3 → heap_ext h1 h3.
Proof.
  intros H12 H23 l o H.
  destruct (H12 l o H) as (o2 & H2 & E2).
  destruct (H23 l o2 H2) as (o3 & H3 & E3).
  exists o3. split; [done | by eapply obj_ext_trans].
Qed.

Lemma heap_ext_snoc h o : heap_ext h (h ++ [o]).
Proof.
  intros l o' H. exists o'. split; [|apply obj_ext_refl].
  by apply lookup_app_l_Some.
Qed.

Lemma heap_ext_alter h p l : heap_ext h (alter (append_child l) p h).
Proof.
  intros j o H. destruct (decide (p = j)) as [->|Hne].
  - exists (append_child l o). split; [|apply obj_ext_append].
    by rewrite list_lookup_alter_eq, H.
  - exists o. split; [|apply obj_ext_refl]. by rewrite list_lookup_alter_ne.
Qed.

Lemma heap_ext_length h h' : heap_ext h h' → (length h ≤ length h')%nat.
Proof.
  intros H. destruct h as [|o h _] using rev_ind; [simpl; lia|].
  destruct (H (length h) o) as (o' & Ho' & _).
  { by rewrite list_lookup_middle. }
  apply lookup_lt_Some in Ho'. rewrite length_app. simpl. lia.
Qed.

Lemma is_fragment_ext h h' l : heap_ext h h' → is_fragment h l → is_fragment h' l.
Proof.
  intros H (i & n & gs & Hl). destruct (H _ _ Hl) as (o' & Ho' & E).
  destruct o'; simpl in E; try done. by repeat eexists.
Qed.

Lemma is_group_ext h h' l : heap_ext h h' → is_group h l → is_group h' l.
Proof.
  intros H (i & n & gd & its & Hl). destruct (H _ _ Hl) as (o' & Ho' & E).
  destruct o'; simpl in E; try done. by repeat eexists.
Qed.

Lemma is_item_ext h h' l : heap_ext h h' → is_item h l → is_item h' l.
Proof.
  intros H (o & Hl & Hk). destruct (H _ _ Hl) as (o' & Ho' & E).
  exists o'. split; [done|]. by rewrite (obj_ext_kind _ _ E).
Qed.

Lemma group_of_ext h h' f g : heap_ext h h' → group_of h f g → group_of h' f g.
Proof.
  intros H (i & n & gs & Hl & Hin). destruct (H _ _ Hl) as (o' & Ho' & E).
  destruct o' as [| | |i' n' gs']; simpl in E; try done.
  destruct E as (-> & -> & Hp). exists i', n', gs'. split; [done|].
  by eapply elem_of_prefix.
Qed.

Lemma ctx_ok_ext h h' c : heap_ext h h' → ctx_ok h c → ctx_ok h' c.
Proof.
  intros H. destruct c as [[f|] [g|]]; simpl; try done.
  - intros [? ?]. split; [by eapply group_of_ext | by eapply is_group_ext].
  - by apply is_fragment_ext.
Qed.

(** *** What each method does, on a consistent context *)

Lemma insert_alter {A} (f : A → A) (l : list A) (i : nat) (x : A) :
  l !! i = Some x → <[i := f x]> l = alter f i l.
Proof.
  revert i. induction l as [|y l IH]; intros [|i]; simpl; try done.
  - by intros [= ->].
  - intros H. f_equal. by apply IH.
Qed.

Lemma lookup_snoc_lt {A} (l : list A) (x y : A) (i : nat) :
  l !! i = Some y → (l ++ [x]) !! i = Some y.
Proof. apply lookup_app_l_Some. Qed.

Ltac unfold_m :=
  unfold add_message, add_state, add_event, enter_fragment, enter_group,
    exit_fragment, get_scenario, add_item, add_group, get_name, new,
    bind, ret, raise, gets, modify; simpl.

Lemma add_event_spec ev s :
  ctx_ok (heap s) (current_fragment s, current_group s) →
  add_event ev s =
    let l := length (heap s) in
    match current_fragment s, current_group s with
    | None, _ =>
        Returned l
          {| heap := heap s ++ [ev]; base := base s ++ [l];
             current_fragment := None; current_group := current_group s;
             state_stack := state_stack s;
             event_counter := event_counter s + 1;
             group_counter := group_counter s;
             fragment_counter := fragment_counter s |}
    | Some f, None =>
        Raised (Exception msg_no_group_event)
          {| heap := heap s ++ [ev]; base := base s;
             current_fragment := Some f; current_group := None;
             state_stack := state_stack s;
             event_counter := event_counter s + 1;
             group_counter := group_counter s;
             fragment_counter := fragment_counter s |}
    | Some f, Some g =>
        Returned l
          {| heap := alter (append_child l) g (heap s ++ [ev]); base := base s;
             current_fragment := Some f; current_group := Some g;
             state_stack := state_stack s;
             event_counter := event_counter s + 1;
             group_counter := group_counter s;
             fragment_counter := fragment_counter s |}
    end.
Proof.
  destruct s as [h b [f|] [g|] k ec gc fc]; simpl; try done.
  - intros [(fi & fn & gs & Hf & Hin) (i & n & gd & its & Hg)].
    unfold_m.
    rewrite (lookup_snoc_lt _ _ _ _ Hg).
    rewrite (insert_alter (append_child (length h)) _ _ (Group i n gd its))
      by by apply lookup_snoc_lt.
    simpl. rewrite list_lookup_alter_eq, (lookup_snoc_lt _ _ _ _ Hg). simpl.
    assert (g ≠ f) as Hne by (intros ->; congruence).
    rewrite list_lookup_alter_ne by done.
    by rewrite (lookup_snoc_lt _ _ _ _ Hf).
Qed.

Lemma add_message_spec its s :
  add_message its s = add_event (Message (event_counter s) its) s.
Proof. reflexivity. Qed.

Lemma add_state_spec info s :
  add_state info s = add_event (State (event_counter s) info) s.
Proof. reflexivity. Qed.

Lemma enter_fragment_spec s :
  ctx_ok (heap s) (current_fragment s, current_group s) →
  enter_fragment s =
    let l := length (heap s) in
    let c := fragment_counter s in
    let frag := Fragment c ("Fragment " +:+ pretty c) [] in
    match current_fragment s, current_group s with
    | None, _ =>
        Returned l
          {| heap := heap s ++ [frag]; base := base s ++ [l];
             current_fragment := Some l; current_group := None;
             state_stack := state_stack s ++ [(None, current_group s)];
             event_counter := event_counter s;
             group_counter := group_counter s;
             fragment_counter := c + 1 |}
    | Some f, None =>
        Raised (Exception msg_no_group_fragment)
          {| heap := heap s ++ [frag]; base := base s;
             current_fragment := Some f; current_group := None;
             state_stack := state_stack s;
             event_counter := event_counter s;
             group_counter := group_counter s;
             fragment_counter := c + 1 |}
    | Some f, Some g =>
        Returned l
          {| heap := alter (append_child l) g (heap s ++ [frag]); base := base s;
             current_fragment := Some l; current_group := None;
             state_stack := state_stack s ++ [(Some f, Some g)];
             event_counter := event_counter s;
             group_counter := group_counter s;
             fragment_counter := c + 1 |}
    end.
Proof.
  destruct s as [h b [f|] [g|] k ec gc fc]; simpl; try done.
  intros [_ (i & n & gd & its & Hg)].
  unfold_m.
  rewrite (lookup_snoc_lt _ _ _ _ Hg).
  by rewrite (insert_alter (append_child (length h)) _ _ (Group i n gd its))
    by by apply lookup_snoc_lt.
Qed.

Lemma enter_group_spec guard s :
  ctx_ok (heap s) (current_fragment s, current_group s) →
  enter_group guard s =
    let l := length (heap s) in
    let c := group_counter s in
    match current_fragment s with
    | None => Raised (Exception msg_no_fragment) s
    | Some f =>
        Returned l
          {| heap := alter (append_child l) f
                       (heap s ++ [Group c ("Group " +:+ pretty c) guard []]);
             base := base s;
             current_fragment := Some f; current_group := Some l;
             state_stack := state_stack s;
             event_counter := event_counter s;
             group_counter := c + 1;
             fragment_counter := fragment_counter s |}
    end.
Proof.
  destruct s as [h b [f|] cg k ec gc fc]; simpl; [|done].
  intros Hctx.
  assert (is_fragment h f) as (i & n & gs & Hf).
  { destruct cg; [|done]. destruct Hctx as [(i & n & gs & ? & ?) _]. by repeat eexists. }
  unfold_m.
  rewrite (lookup_snoc_lt _ _ _ _ Hf).
  rewrite (insert_alter (append_child (length h)) _ _ (Fragment i n gs))
    by by apply lookup_snoc_lt.
  simpl. by rewrite list_lookup_alter_eq, (lookup_snoc_lt _ _ _ _ Hf).
Qed.

Lemma ctx_ok_fragment h f cg : ctx_ok h (Some f, cg) → is_fragment h f.
Proof.
  destruct cg; simpl; [|done].
  intros [(i & n & gs & ? & ?) _]. by repeat eexists.
Qed.

Lemma stack_ok_snoc h cf k c :
  stack_ok h cf (k ++ [c]) →
  (∃ f, cf = Some f) ∧
  match c.1 with
  | Some _ => ctx_ok h c ∧ ∃ pf pg, c = (Some pf, Some pg)
  | None => c = (None, None) ∧ k = []
  end.
Proof.
  destruct k as [|c0 k]; simpl.
  - intros (-> & Hcf & _). split; [by destruct cf; eauto|done].
  - intros (-> & Hcf & Hall). split; [by destruct cf; eauto|].
    apply Forall_app in Hall as [_ Hall]. rewrite Forall_singleton in Hall.
    destruct Hall as [(pf & pg & ->) Hc]. simpl. eauto.
Qed.

Lemma exit_fragment_spec s :
  ctx_ok (heap s) (current_fragment s, current_group s) →
  stack_ok (heap s) (current_fragment s) (state_stack s) →
  exit_fragment s =
    match list_pop (state_stack s) with
    | None => Raised (Exception msg_empty_stack) s
    | Some (k', (prev_fragment, prev_group)) =>
        Returned tt
          {| heap := heap s; base := base s;
             current_fragment := prev_fragment; current_group := prev_group;
             state_stack := k';
             event_counter := event_counter s;
             group_counter := group_counter s;
             fragment_counter := fragment_counter s |}
    end.
Proof.
  destruct s as [h b cf cg k ec gc fc]; simpl.
  intros Hctx Hk. unfold exit_fragment, bind, gets. simpl.
  destruct (list_pop k) as [[k' [pf pg]]|] eqn:Hpop; [|done].
  apply list_pop_Some in Hpop as ->.
  apply stack_ok_snoc in Hk as [(f & ->) Hprev]. simpl in Hprev.
  apply ctx_ok_fragment in Hctx as (i & n & gs & Hf).
  unfold_m. rewrite Hf. simpl.
  destruct pf as [pf|]; [|done].
  destruct Hprev as [Hprev _].
  apply ctx_ok_fragment in Hprev as (i' & n' & gs' & Hpf).
  unfold_m. by rewrite Hpf.
Qed.

(** *** Preservation of the invariants *)

Lemma stack_ok_ext h h' cf k : heap_ext h h' → stack_ok h cf k → stack_ok h' cf k.
Proof.
  intros H. destruct k as [|c k]; simpl; [done|].
  intros (? & ? & Hall). repeat split; try done.
  eapply Forall_impl; [done|]. simpl. intros c' [? ?].
  split; [done | by eapply ctx_ok_ext].
Qed.

Lemma stack_ok_push h cf cg f k :
  ctx_ok h (cf, cg) → (cf ≠ None → cg ≠ None) →
  stack_ok h cf k → stack_ok h (Some f) (k ++ [(cf, cg)]).
Proof.
  intros Hctx Hcg. destruct k as [|c k]; simpl.
  - intros ->. destruct cg; [done|]. by repeat split.
  - intros (-> & Hcf & Hall). repeat split; [done|].
    apply Forall_app. split; [done|]. apply Forall_singleton.
    split; [|done]. destruct cf as [f'|]; [|done].
    destruct cg as [g'|]; [by eauto|]. by destruct Hcg.
Qed.

Lemma stack_ok_pop h cf k pf pg :
  stack_ok h cf (k ++ [(pf, pg)]) → stack_ok h pf k ∧ ctx_ok h (pf, pg).
Proof.
  destruct k as [|c k] using rev_ind.
  - simpl. by intros ([= -> ->] & _ & _).
  - intros Hk. destruct (stack_ok_snoc _ _ _ _ Hk) as [_ Hprev].
    simpl in Hprev. destruct pf as [pf|].
    + destruct Hprev as [Hc _]. split; [|done].
      clear IHk. destruct k as [|c0 k]; simpl in *.
      * destruct Hk as (-> & _ & _). by repeat split.
      * destruct Hk as (-> & _ & Hall). repeat split; [done|].
        by apply Forall_app in Hall as [? _].
    + destruct Hprev as [_ Hnil]. by destruct k.
Qed.

Lemma heap_typed_snoc h o : children o = [] → heap_typed h → heap_typed (h ++ [o]).
Proof.
  intros Ho Hh l o' Hl.
  apply lookup_snoc_Some in Hl as [[Hlt Hl]|[-> ->]].
  - specialize (Hh l o' Hl). destruct o'; try done.
    + eapply Forall_impl; [done|]. simpl. intros c [? ?].
      split; [done|]. eapply is_item_ext; [apply heap_ext_snoc | done].
    + eapply Forall_impl; [done|]. simpl. intros c [? ?].
      split; [done|]. eapply is_group_ext; [apply heap_ext_snoc | done].
  - destruct o'; simpl in Ho; try done; by subst.
Qed.

(** Attaching [l] under [p]: [p] was created before [l], and [l] is of
    the class [p] holds. *)
Lemma heap_typed_alter h p l :
  heap_typed h → (p < l)%nat →
  (is_fragment h p → is_group h l) →
  (is_group h p → is_item h l) →
  heap_typed (alter (append_child l) p h).
Proof.
  intros Hh Hlt Hf Hg j o Hj.
  pose proof (heap_ext_alter h p l) as Hext.
  destruct (decide (p = j)) as [->|Hne].
  - rewrite list_lookup_alter_eq in Hj.
    destruct (h !! j) as [o0|] eqn:Hj0; [|done]. injection Hj as <-.
    specialize (Hh j o0 Hj0). destruct o0; simpl; try done.
    + apply Forall_app. split.
      * eapply Forall_impl; [done|]. simpl. intros c [? ?].
        split; [done | by eapply is_item_ext].
      * apply Forall_singleton. split; [done|].
        eapply is_item_ext; [done|]. apply Hg. by repeat eexists.
    + apply Forall_app. split.
      * eapply Forall_impl; [done|]. simpl. intros c [? ?].
        split; [done | by eapply is_group_ext].
      * apply Forall_singleton. split; [done|].
        eapply is_group_ext; [done|]. apply Hf. by repeat eexists.
  - rewrite list_lookup_alter_ne in Hj by done.
    specialize (Hh j o Hj). destruct o; try done.
    + eapply Forall_impl; [done|]. simpl. intros c [? ?].
      split; [done | by eapply is_item_ext].
    + eapply Forall_impl; [done|]. simpl. intros c [? ?].
      split; [done | by eapply is_group_ext].
Qed.

Lemma ids_of_snoc k h o :
  ids_of k (h ++ [o]) = ids_of k h ++ (if decide (kind_of o = k) then [obj_id o] else []).
Proof.
  unfold ids_of. rewrite filter_app, fmap_app. f_equal.
  rewrite filter_cons, filter_nil. by destruct (decide _).
Qed.

Lemma ids_of_alter k l p h : ids_of k (alter (append_child l) p h) = ids_of k h.
Proof.
  unfold ids_of. revert p. induction h as [|o h IH]; intros [|p]; simpl; try done.
  - rewrite !filter_cons, append_child_kind.
    destruct (decide _); simpl; [|done]. by rewrite append_child_id.
  - rewrite !filter_cons. destruct (decide _); simpl; [f_equal|]; apply IH.
Qed.

Lemma seqZ_snoc (c : Z) : (1 ≤ c)%Z → seqZ 1 (c + 1 - 1) = seqZ 1 (c - 1) ++ [c].
Proof.
  intros Hc. replace (c + 1 - 1)%Z with ((c - 1) + 1)%Z by lia.
  rewrite seqZ_app by lia. f_equal.
  replace (1 + (c - 1))%Z with c by lia. reflexivity.
Qed.

Lemma ids_ok_new s s' o :
  ids_ok s →
  obj_id o = counter_of (kind_of o) s →
  (∀ k, ids_of k (heap s') = ids_of k (heap s ++ [o])) →
  (∀ k, counter_of k s' =
        if decide (kind_of o = k) then (counter_of k s + 1)%Z else counter_of k s) →
  ids_ok s'.
Proof.
  intros Hs Hid Hh Hc k. destruct (Hs k) as [H1 H2].
  rewrite Hh, Hc, ids_of_snoc, H2.
  destruct (decide (kind_of o = k)) as [<-|].
  - rewrite Hid. split; [lia|]. symmetry. by apply seqZ_snoc.
  - split; [done|]. by rewrite app_nil_r.
Qed.

Lemma is_item_new h o : kind_of o ≠ KGroup → is_item (h ++ [o]) (length h).
Proof. intros Hk. exists o. split; [|done]. by rewrite list_lookup_middle. Qed.

Lemma ctx_ok_lt h f g : ctx_ok h (Some f, Some g) → (g < length h)%nat.
Proof. intros [_ (? & ? & ? & ? & Hg)]. by apply lookup_lt_Some in Hg. Qed.

Ltac fields :=
  cbn [heap base current_fragment current_group state_stack
       event_counter group_counter fragment_counter counter_of] in *.

(** An object is created and nothing else changes. *)
Lemma wf_create s o ec gc fc :
  wf s → children o = [] →
  obj_id o = counter_of (kind_of o) s →
  (∀ k, counter_of k (mkBuilder [] [] None None [] ec gc fc) =
        if decide (kind_of o = k) then (counter_of k s + 1)%Z else counter_of k s) →
  wf {| heap := heap s ++ [o]; base := base s;
        current_fragment := current_fragment s; current_group := current_group s;
        state_stack := state_stack s;
        event_counter := ec; group_counter := gc; fragment_counter := fc |}.
Proof.
  intros [Hctx Hk Hh Hb Hids] Ho Hid Hc.
  pose proof (heap_ext_snoc (heap s) o) as Hext.
  constructor; fields.
  - by eapply ctx_ok_ext.
  - by eapply stack_ok_ext.
  - by apply heap_typed_snoc.
  - eapply Forall_impl; [done|]. intros c ?. by eapply is_item_ext.
  - by eapply (ids_ok_new s _ o).
Qed.

(** An item is created and appended to the root sequence. *)
Lemma wf_create_base s o cf cg k ec gc fc :
  wf s → children o = [] → kind_of o ≠ KGroup →
  obj_id o = counter_of (kind_of o) s →
  (∀ k, counter_of k (mkBuilder [] [] None None [] ec gc fc) =
        if decide (kind_of o = k) then (counter_of k s + 1)%Z else counter_of k s) →
  ctx_ok (heap s ++ [o]) (cf, cg) →
  stack_ok (heap s ++ [o]) cf k →
  wf {| heap := heap s ++ [o]; base := base s ++ [length (heap s)];
        current_fragment := cf; current_group := cg;
        state_stack := k;
        event_counter := ec; group_counter := gc; fragment_counter := fc |}.
Proof.
  intros [Hctx Hk Hh Hb Hids] Ho Hkind Hid Hc Hctx' Hk'.
  pose proof (heap_ext_snoc (heap s) o) as Hext.
  constructor; fields; try done.
  - by apply heap_typed_snoc.
  - apply Forall_app. split.
    + eapply Forall_impl; [done|]. intros c ?. by eapply is_item_ext.
    + apply Forall_singleton. by apply is_item_new.
  - by eapply (ids_ok_new s _ o).
Qed.

(** An object is created and appended to the children of [p]. *)
Lemma wf_create_under s o p cf cg k ec gc fc :
  wf s → children o = [] → (p < length (heap s))%nat →
  (is_fragment (heap s) p → kind_of o = KGroup) →
  (is_group (heap s) p → kind_of o ≠ KGroup) →
  obj_id o = counter_of (kind_of o) s →
  (∀ k, counter_of k (mkBuilder [] [] None None [] ec gc fc) =
        if decide (kind_of o = k) then (counter_of k s + 1)%Z else counter_of k s) →
  let h' := alter (append_child (length (heap s))) p (heap s ++ [o]) in
  ctx_ok h' (cf, cg) →
  stack_ok h' cf k →
  wf {| heap := h'; base := base s;
        current_fragment := cf; current_group := cg;
        state_stack := k;
        event_counter := ec; group_counter := gc; fragment_counter := fc |}.
Proof.
  intros [Hctx Hk Hh Hb Hids] Ho Hp Hpf Hpg Hid Hc h' Hctx' Hk'.
  assert (heap_ext (heap s) h') as Hext.
  { eapply heap_ext_trans; [apply heap_ext_snoc | apply heap_ext_alter]. }
  assert ((heap s ++ [o]) !! length (heap s) = Some o) as Hnew
    by by rewrite list_lookup_middle.
  constructor; fields; try done.
  - apply heap_typed_alter; [by apply heap_typed_snoc | done | |].
    + intros (i & n & gs & Hl). apply lookup_snoc_Some in Hl as [[_ Hl]|[-> _]]; [|lia].
      assert (kind_of o = KGroup) as Hko by (apply Hpf; by repeat eexists).
      destruct o; simpl in Hko; try done. by repeat eexists.
    + intros (i & n & gd & its & Hl).
      apply lookup_snoc_Some in Hl as [[_ Hl]|[-> _]]; [|lia].
      exists o. split; [done|]. apply Hpg. by repeat eexists.
  - eapply Forall_impl; [done|]. intros c ?. by eapply is_item_ext.
  - eapply (ids_ok_new s _ o); try done; fields.
    intros k'. unfold h'. by rewrite ids_of_alter.
Qed.

(** Only the context changes. *)
Lemma wf_context s cf cg k :
  wf s → ctx_ok (heap s) (cf, cg) → stack_ok (heap s) cf k →
  wf {| heap := heap s; base := base s;
        current_fragment := cf; current_group := cg; state_stack := k;
        event_counter := event_counter s; group_counter := group_counter s;
        fragment_counter := fragment_counter s |}.
Proof.
  intros [Hctx Hk Hh Hb Hids] Hctx' Hk'. by constructor.
Qed.

Lemma wf_init : wf init.
Proof.
  constructor; simpl; try done. by intros [].
Qed.

Lemma heap_ext_attach h o p :
  heap_ext h (alter (append_child (length h)) p (h ++ [o])).
Proof. eapply heap_ext_trans; [apply heap_ext_snoc | apply heap_ext_alter]. Qed.

Lemma lookup_attach_new h o p :
  (p < length h)%nat →
  alter (append_child (length h)) p (h ++ [o]) !! length h = Some o.
Proof.
  intros Hp. rewrite list_lookup_alter_ne by lia. by rewrite list_lookup_middle.
Qed.

Lemma lookup_attach_parent h o p op :
  h !! p = Some op →
  alter (append_child (length h)) p (h ++ [o]) !! p = Some (append_child (length h) op).
Proof.
  intros Hp. by rewrite list_lookup_alter_eq, (lookup_snoc_lt _ _ _ _ Hp).
Qed.

Lemma wf_add_event ev s :
  wf s → kind_of ev = KEvent → obj_id ev = event_counter s →
  wf (outcome_state (add_event ev s)).
Proof.
  intros Hwf Hkind Hid.
  assert (children ev = []) as Hch by by destruct ev.
  pose proof (wf_ctx _ Hwf) as Hctx. pose proof (wf_stack _ Hwf) as Hk.
  rewrite add_event_spec by done.
  destruct (current_fragment s) as [f|] eqn:Ef;
    [destruct (current_group s) as [g|] eqn:Eg|]; cbn [outcome_state].
  - apply wf_create_under;
      [done | done | by eapply ctx_ok_lt | | | | | |]; rewrite ?Hkind.
    + intros (? & ? & ? & Hf). destruct Hctx as [_ (? & ? & ? & ? & Hg)]. congruence.
    + done.
    + done.
    + by intros [].
    + eapply ctx_ok_ext; [apply heap_ext_attach | done].
    + eapply stack_ok_ext; [apply heap_ext_attach | done].
  - rewrite <- Ef, <- Eg. apply wf_create; [done | done | |]; rewrite Hkind.
    + done.
    + by intros [].
  - apply wf_create_base; [done | done | | | | |]; rewrite ?Hkind.
    + done.
    + done.
    + by intros [].
    + eapply ctx_ok_ext; [apply heap_ext_snoc | done].
    + eapply stack_ok_ext; [apply heap_ext_snoc | done].
Qed.

Lemma wf_enter_fragment s : wf s → wf (outcome_state (enter_fragment s)).
Proof.
  intros Hwf.
  pose proof (wf_ctx _ Hwf) as Hctx. pose proof (wf_stack _ Hwf) as Hk.
  rewrite enter_fragment_spec by done.
  destruct (current_fragment s) as [f|] eqn:Ef;
    [destruct (current_group s) as [g|] eqn:Eg|]; cbn zeta; cbn [outcome_state].
  - pose proof (ctx_ok_lt _ _ _ Hctx) as Hlt.
    apply wf_create_under; [done | done | done | | | | | |].
    + intros (? & ? & ? & Hf). destruct Hctx as [_ (? & ? & ? & ? & Hg)]. congruence.
    + done.
    + done.
    + by intros [].
    + cbn. do 3 eexists. by apply lookup_attach_new.
    + apply stack_ok_push; [| done |].
      * eapply ctx_ok_ext; [apply heap_ext_attach | done].
      * eapply stack_ok_ext; [apply heap_ext_attach | done].
  - rewrite <- Ef, <- Eg. apply wf_create; [done | done | done |]. by intros [].
  - destruct (current_group s) as [g|] eqn:Eg; [done|].
    apply wf_create_base; [done | done | done | done | | |].
    + by intros [].
    + cbn. do 3 eexists. by rewrite list_lookup_middle.
    + apply (stack_ok_push _ None None); [done | done |].
      eapply stack_ok_ext; [apply heap_ext_snoc | done].
Qed.

Lemma wf_enter_group guard s : wf s → wf (outcome_state (enter_group guard s)).
Proof.
  intros Hwf.
  pose proof (wf_ctx _ Hwf) as Hctx. pose proof (wf_stack _ Hwf) as Hk.
  rewrite enter_group_spec by done.
  destruct (current_fragment s) as [f|] eqn:Ef; cbn zeta; cbn [outcome_state]; [|done].
  destruct (ctx_ok_fragment _ _ _ Hctx) as (i & n & gs & Hf).
  pose proof (lookup_lt_Some _ _ _ Hf) as Hlt.
  apply wf_create_under; [done | done | done | | | | | |].
  - done.
  - intros (? & ? & ? & ? & Hg). congruence.
  - done.
  - by intros [].
  - cbn. split.
    + exists i, n, (gs ++ [length (heap s)]). split.
      * by rewrite (lookup_attach_parent _ _ _ _ Hf).
      * apply elem_of_app. right. by apply list_elem_of_singleton.
    + do 4 eexists. by apply lookup_attach_new.
  - eapply stack_ok_ext; [apply heap_ext_attach | done].
Qed.

Lemma wf_exit_fragment s : wf s → wf (outcome_state (exit_fragment s)).
Proof.
  intros Hwf.
  pose proof (wf_ctx _ Hwf) as Hctx. pose proof (wf_stack _ Hwf) as Hk.
  rewrite exit_fragment_spec by done.
  destruct (list_pop (state_stack s)) as [[k' [pf pg]]|] eqn:Hpop;
    cbn [outcome_state]; [|done].
  apply list_pop_Some in Hpop. rewrite Hpop in Hk.
  apply stack_ok_pop in Hk as [? ?]. by apply wf_context.
Qed.

Lemma exec_state o s :
  outcome_state (exec o s) =
    match o with
    | AddMessage its => outcome_state (add_message its s)
    | AddState info => outcome_state (add_state info s)
    | EnterFragment => outcome_state (enter_fragment s)
    | EnterGroup guard => outcome_state (enter_group guard s)
    | ExitFragment => outcome_state (exit_fragment s)
    end.
Proof.
  destruct o; unfold exec; unfold bind at 1; unfold ret; by case_match.
Qed.

Lemma wf_step o s : wf s → wf (outcome_state (exec o s)).
Proof.
  intros Hwf. rewrite exec_state. destruct o.
  - rewrite add_message_spec. by apply wf_add_event.
  - rewrite add_state_spec. by apply wf_add_event.
  - by apply wf_enter_fragment.
  - by apply wf_enter_group.
  - by apply wf_exit_fragment.
Qed.

Lemma reachable_wf s : reachable s → wf s.
Proof.
  apply reachable_ind'; [apply wf_init|]. intros s' o _. apply wf_step.
Qed.

(** *** Every call has one of four effects *)

Lemma exec_eq o s :
  exec o s =
    match o with
    | AddMessage its =>
        match add_message its s with
        | Returned l s' => Returned (Some l) s'
        | Raised e s' => Raised e s'
        end
    | AddState info =>
        match add_state info s with
        | Returned l s' => Returned (Some l) s'
        | Raised e s' => Raised e s'
        end
    | EnterFragment =>
        match enter_fragment s with
        | Returned l s' => Returned (Some l) s'
        | Raised e s' => Raised e s'
        end
    | EnterGroup guard =>
        match enter_group guard s with
        | Returned l s' => Returned (Some l) s'
        | Raised e s' => Raised e s'
        end
    | ExitFragment =>
        match exit_fragment s with
        | Returned _ s' => Returned None s'
        | Raised e s' => Raised e s'
        end
    end.
Proof. by destruct o. Qed.

Lemma add_event_effect c ev s :
  wf s → op_kind c = Some KEvent → kind_of ev = KEvent → obj_id ev = event_counter s →
  ∃ eff, has_effect c eff s (outcome_state (add_event ev s)).
Proof.
  intros Hwf Hc Hkind Hid. pose proof (wf_ctx _ Hwf) as Hctx.
  assert (∀ s', (∀ k, counter_of k s' =
                   if decide (KEvent = k) then (counter_of k s + 1)%Z else counter_of k s) →
                created c ev s s') as Hcr.
  { intros s' Hs'. unfold created. rewrite Hkind. by destruct ev. }
  rewrite add_event_spec by done.
  destruct (current_fragment s) as [f|] eqn:Ef;
    [destruct (current_group s) as [g|] eqn:Eg|]; cbn zeta; cbn [outcome_state].
  - exists (CreateUnder ev g).
    split; [apply Hcr; by intros []|]. split; [by eapply ctx_ok_lt | done].
  - exists (Create ev). split; [apply Hcr; by intros [] | done].
  - exists (CreateBase ev). split; [apply Hcr; by intros [] | done].
Qed.

Lemma exec_effect c s :
  wf s → ∃ eff, has_effect c eff s (outcome_state (exec c s)).
Proof.
  intros Hwf. pose proof (wf_ctx _ Hwf) as Hctx. pose proof (wf_stack _ Hwf) as Hk.
  rewrite exec_state. destruct c as [its|info| |guard|].
  - rewrite add_message_spec. by apply add_event_effect.
  - rewrite add_state_spec. by apply add_event_effect.
  - rewrite enter_fragment_spec by done.
    destruct (current_fragment s) as [f|] eqn:Ef;
      [destruct (current_group s) as [g|] eqn:Eg|]; cbn zeta; cbn [outcome_state].
    + exists (CreateUnder (Fragment (fragment_counter s)
                ("Fragment " +:+ pretty (fragment_counter s)) []) g).
      split; [repeat split; try done; by intros []|].
      split; [by eapply ctx_ok_lt | done].
    + exists (Create (Fragment (fragment_counter s)
                ("Fragment " +:+ pretty (fragment_counter s)) [])).
      split; [repeat split; try done; by intros [] | done].
    + exists (CreateBase (Fragment (fragment_counter s)
                ("Fragment " +:+ pretty (fragment_counter s)) [])).
      split; [repeat split; try done; by intros [] | done].
  - rewrite enter_group_spec by done.
    destruct (current_fragment s) as [f|] eqn:Ef; cbn zeta; cbn [outcome_state].
    + exists (CreateUnder (Group (group_counter s)
                ("Group " +:+ pretty (group_counter s)) guard []) f).
      split; [repeat split; try done; by intros []|]. split; [|done].
      destruct (ctx_ok_fragment _ _ _ Hctx) as (i & n & gs & Hf).
      by apply lookup_lt_Some in Hf.
    + by exists NoEffect.
  - rewrite exit_fragment_spec by done.
    destruct (list_pop (state_stack s)) as [[k' [pf pg]]|]; cbn [outcome_state];
      by exists NoEffect.
Qed.

(** *** The model is append-only *)

Lemma effect_heap_ext c eff s s' : has_effect c eff s s' → heap_ext (heap s) (heap s').
Proof.
  destruct eff as [|o|o|o p]; simpl.
  - intros (-> & _). apply heap_ext_refl.
  - intros (_ & -> & _). apply heap_ext_snoc.
  - intros (_ & -> & _). apply heap_ext_snoc.
  - intros (_ & _ & -> & _). apply heap_ext_attach.
Qed.

Lemma effect_base c eff s s' : has_effect c eff s s' → base s `prefix_of` base s'.
Proof.
  destruct eff as [|o|o|o p]; simpl.
  - by intros (_ & -> & _).
  - by intros (_ & _ & ->).
  - intros (_ & _ & ->). by apply prefix_app_r.
  - by intros (_ & _ & _ & ->).
Qed.

Lemma exec_heap_ext c s : wf s → heap_ext (heap s) (heap (outcome_state (exec c s))).
Proof.
  intros Hwf. destruct (exec_effect c s Hwf) as [eff Heff].
  by eapply effect_heap_ext.
Qed.

Lemma exec_base c s : wf s → base s `prefix_of` base (outcome_state (exec c s)).
Proof.
  intros Hwf. destruct (exec_effect c s Hwf) as [eff Heff].
  by eapply effect_base.
Qed.

Lemma run_wf ops s : wf s → wf (run ops s).
Proof.
  revert s. induction ops as [|o ops IH]; intros s Hwf; [done|].
  rewrite run_cons. apply IH. by apply wf_step.
Qed.

Lemma run_heap_ext ops s : wf s → heap_ext (heap s) (heap (run ops s)).
Proof.
  revert s. induction ops as [|o ops IH]; intros s Hwf; [apply heap_ext_refl|].
  rewrite run_cons. eapply heap_ext_trans; [by apply exec_heap_ext|].
  apply IH. by apply wf_step.
Qed.

Lemma run_base ops s : wf s → base s `prefix_of` base (run ops s).
Proof.
  revert s. induction ops as [|o ops IH]; intros s Hwf; [done|].
  rewrite run_cons. etrans; [by apply (exec_base o)|].
  apply IH. by apply wf_step.
Qed.

Lemma attached_ext s s' l :
  heap_ext (heap s) (heap s') → base s `prefix_of` base s' →
  attached s l → attached s' l.
Proof.
  intros Hh Hb [Hl|(p & o & Hp & Hl)].
  - left. by eapply elem_of_prefix.
  - right. destruct (Hh _ _ Hp) as (o' & Hp' & Hext).
    exists p, o'. split; [done|].
    eapply elem_of_prefix; [done|]. by apply obj_ext_children.
Qed.

(** Every reference the model holds is inside the store. *)
Lemma attached_lt s l : wf s → attached s l → (l < length (heap s))%nat.
Proof.
  intros Hwf [Hl|(p & o & Hp & Hl)].
  - pose proof (wf_base _ Hwf) as Hb. rewrite Forall_forall in Hb.
    destruct (Hb _ Hl) as (o & Ho & _). by apply lookup_lt_Some in Ho.
  - pose proof (wf_heap _ Hwf p o Hp) as Hh.
    destruct o; simpl in Hl; try by apply elem_of_nil in Hl.
    + rewrite Forall_forall in Hh. destruct (Hh _ Hl) as [_ (o & Ho & _)].
      by apply lookup_lt_Some in Ho.
    + rewrite Forall_forall in Hh. destruct (Hh _ Hl) as [_ (? & ? & ? & ? & Ho)].
      by apply lookup_lt_Some in Ho.
Qed.

(** A call attaches nothing but the node it has just constructed. *)
Lemma effect_attached_old c eff s s' l :
  has_effect c eff s s' → (l < length (heap s))%nat →
  attached s' l → attached s l.
Proof.
  intros Heff Hlt Hatt.
  assert (∀ o p ob, children o = [] →
            (heap s ++ [o]) !! p = Some ob → l ∈ children ob →
            ∃ ob', heap s !! p = Some ob' ∧ l ∈ children ob') as Hsnoc.
  { intros o p ob Ho Hp Hl. apply lookup_snoc_Some in Hp as [[_ Hp]|[_ <-]].
    - by exists ob.
    - rewrite Ho in Hl. by apply elem_of_nil in Hl. }
  destruct eff as [|o|o|o q]; simpl in Heff.
  - destruct Heff as (Hh & Hb & _).
    destruct Hatt as [Hl|(p & ob & Hp & Hl)]; [left|right].
    + by rewrite <- Hb.
    + exists p, ob. by rewrite <- Hh.
  - destruct Heff as ((Ho & _) & Hh & Hb).
    destruct Hatt as [Hl|(p & ob & Hp & Hl)]; [left|right].
    + by rewrite <- Hb.
    + rewrite Hh in Hp. destruct (Hsnoc _ _ _ Ho Hp Hl) as (ob' & ? & ?). eauto.
  - destruct Heff as ((Ho & _) & Hh & Hb).
    destruct Hatt as [Hl|(p & ob & Hp & Hl)]; [left|right].
    + rewrite Hb in Hl. apply elem_of_app in Hl as [Hl|Hl]; [done|].
      apply list_elem_of_singleton in Hl. lia.
    + rewrite Hh in Hp. destruct (Hsnoc _ _ _ Ho Hp Hl) as (ob' & ? & ?). eauto.
  - destruct Heff as ((Ho & _) & Hq & Hh & Hb).
    destruct Hatt as [Hl|(p & ob & Hp & Hl)]; [left; by rewrite <- Hb|right].
    rewrite Hh in Hp. destruct (decide (q = p)) as [->|Hne].
    + rewrite list_lookup_alter_eq in Hp.
      destruct ((heap s ++ [o]) !! p) as [ob0|] eqn:Hp0; [|done].
      injection Hp as <-.
      assert (l ∈ children ob0) as Hl0.
      { destruct ob0; simpl in *; try done;
          apply elem_of_app in Hl as [Hl|Hl]; try done;
          apply list_elem_of_singleton in Hl; lia. }
      destruct (Hsnoc _ _ _ Ho Hp0 Hl0) as (ob' & ? & ?). eauto.
    + rewrite list_lookup_alter_ne in Hp by done.
      destruct (Hsnoc _ _ _ Ho Hp Hl) as (ob' & ? & ?). eauto.
Qed.

Lemma exec_attached_old c s l :
  wf s → (l < length (heap s))%nat →
  attached (outcome_state (exec c s)) l → attached s l.
Proof.
  intros Hwf. destruct (exec_effect c s Hwf) as [eff Heff].
  by eapply effect_attached_old.
Qed.

Lemma run_attached_old ops s l :
  wf s → (l < length (heap s))%nat → attached (run ops s) l → attached s l.
Proof.
  revert s. induction ops as [|o ops IH]; intros s Hwf Hlt; [done|].
  rewrite run_cons. intros Hatt.
  apply (exec_attached_old o); [done | done |].
  apply IH; [by apply wf_step | | done].
  pose proof (heap_ext_length _ _ (exec_heap_ext o s Hwf)). lia.
Qed.

Lemma attached_create s s' o l :
  heap s' = heap s ++ [o] → children o = [] → base s' = base s →
  attached s' l → attached s l.
Proof.
  intros Hh Ho Hb [Hl|(p & ob & Hp & Hl)]; [left; by rewrite <- Hb|right].
  rewrite Hh in Hp. apply lookup_snoc_Some in Hp as [[_ Hp]|[_ ->]].
  - by exists p, ob.
  - rewrite Ho in Hl. by apply elem_of_nil in Hl.
Qed.

Lemma attachedb_spec s l : attachedb s l = true ↔ attached s l.
Proof.
  unfold attachedb, attached.
  rewrite orb_true_iff, bool_decide_eq_true, existsb_exists. split.
  - intros [?|(o & Hin & Hl)]; [by left|right].
    apply list_elem_of_In, list_elem_of_lookup in Hin as [p Hp].
    apply bool_decide_eq_true in Hl. eauto.
  - intros [?|(p & o & Hp & Hl)]; [by left|right].
    exists o. split; [|by apply bool_decide_eq_true].
    apply list_elem_of_In, list_elem_of_lookup. eauto.
Qed.

Lemma elem_of_attached_ids k s a :
  a ∈ attached_ids k s ↔
  ∃ l o, heap s !! l = Some o ∧ kind_of o = k ∧ attached s l ∧ obj_id o = a.
Proof.
  unfold attached_ids. rewrite list_elem_of_omap. split.
  - intros ([l o] & Hin & Hf). simpl in Hf.
    apply elem_of_lookup_imap in Hin as (l' & o' & [= <- <-] & Hl).
    destruct (decide (kind_of o = k)); [|done].
    destruct (attachedb s l) eqn:Hb; [|done]. injection Hf as <-.
    exists l, o. split_and!; try done. by apply attachedb_spec.
  - intros (l & o & Hl & Hk & Hatt & <-). exists (l, o). split.
    + by apply elem_of_lookup_imap_2.
    + simpl. rewrite decide_True by done.
      apply attachedb_spec in Hatt. by rewrite Hatt.
Qed.

Lemma elem_of_ids_of k h a :
  a ∈ ids_of k h ↔ ∃ l o, h !! l = Some o ∧ kind_of o = k ∧ obj_id o = a.
Proof.
  unfold ids_of. rewrite list_elem_of_fmap. split.
  - intros (o & -> & Hin). apply list_elem_of_filter in Hin as [Hk Hin].
    apply list_elem_of_lookup in Hin as [l Hl]. eauto.
  - intros (l & o & Hl & Hk & <-). exists o. split; [done|].
    apply list_elem_of_filter. split; [done|]. apply list_elem_of_lookup. eauto.
Qed.

(** Two objects of one kind with the same id are the same object. *)
Lemma ids_of_NoDup_lookup k h i j x y :
  NoDup (ids_of k h) →
  h !! i = Some x → h !! j = Some y →
  kind_of x = k → kind_of y = k → obj_id x = obj_id y → i = j.
Proof.
  unfold ids_of. revert i j. induction h as [|o h IH]; intros i j Hnd Hi Hj Hx Hy Hid.
  { by rewrite lookup_nil in Hi. }
  rewrite filter_cons in Hnd.
  assert (∀ l z, h !! l = Some z → kind_of z = k →
                 obj_id z ∈ obj_id <$> filter (λ o, kind_of o = k) h) as Hin.
  { intros l z Hl Hz. apply list_elem_of_fmap_2, list_elem_of_filter.
    split; [done|]. apply list_elem_of_lookup. eauto. }
  destruct i as [|i], j as [|j]; simpl in Hi, Hj; [done| | |].
  - injection Hi as ->. rewrite decide_True in Hnd by done.
    apply NoDup_cons in Hnd as [Hnot _]. destruct Hnot.
    rewrite Hid. by eapply Hin.
  - injection Hj as ->. rewrite decide_True in Hnd by done.
    apply NoDup_cons in Hnd as [Hnot _]. destruct Hnot.
    rewrite <- Hid. by eapply Hin.
  - f_equal. apply IH; try done.
    destruct (decide (kind_of o = k)); [|done]. by apply NoDup_cons in Hnd as [_ ?].
Qed.

Lemma wf_ids_unique s i j x y :
  wf s → heap s !! i = Some x → heap s !! j = Some y →
  kind_of x = kind_of y → obj_id x = obj_id y → i = j.
Proof.
  intros Hwf Hi Hj Hk Hid.
  apply (ids_of_NoDup_lookup (kind_of y) (heap s) i j x y); try done.
  destruct (wf_ids _ Hwf (kind_of y)) as [_ ->]. apply NoDup_seqZ.
Qed.

(** *** What a call that raises has done *)

Lemma exec_raised c s e s' :
  wf s → exec c s = Raised e s' →
  current_fragment s' = current_fragment s ∧
  current_group s' = current_group s ∧
  state_stack s' = state_stack s ∧
  base s' = base s ∧
  match c with
  | AddMessage _ | AddState _ | EnterFragment =>
      NoActiveGroup e ∧
      (∃ f, current_fragment s = Some f) ∧ current_group s = None ∧
      ∃ o, has_effect c (Create o) s s'
  | EnterGroup _ => NoActiveFragment e ∧ current_fragment s = None ∧ s' = s
  | ExitFragment => EmptyContextStack e ∧ state_stack s = [] ∧ s' = s
  end.
Proof.
  intros Hwf. pose proof (wf_ctx _ Hwf) as Hctx. pose proof (wf_stack _ Hwf) as Hk.
  rewrite exec_eq.
  assert (∀ ev, kind_of ev = KEvent → obj_id ev = event_counter s →
            op_kind c = Some KEvent →
            match add_event ev s with
            | Returned l s' => Returned (Some l) s'
            | Raised e s' => Raised e s'
            end = Raised e s' →
            current_fragment s' = current_fragment s ∧
            current_group s' = current_group s ∧
            state_stack s' = state_stack s ∧
            base s' = base s ∧
            NoActiveGroup e ∧
            (∃ f, current_fragment s = Some f) ∧ current_group s = None ∧
            ∃ o, has_effect c (Create o) s s') as Hev.
  { intros ev Hkind Hid Hc. rewrite add_event_spec by done. cbn zeta.
    destruct (current_fragment s) as [f|] eqn:Ef;
      [destruct (current_group s) as [g|] eqn:Eg|]; [done | | done].
    intros [= <- <-]. fields. split_and!; try done; [by left | by eauto |].
    exists ev. split; [|done]. unfold created. rewrite Hkind.
    split_and!; try done; [by destruct ev | by intros []]. }
  destruct c as [its|info| |guard|].
  - rewrite add_message_spec. by apply Hev.
  - rewrite add_state_spec. by apply Hev.
  - rewrite enter_fragment_spec by done. cbn zeta.
    destruct (current_fragment s) as [f|] eqn:Ef;
      [destruct (current_group s) as [g|] eqn:Eg|]; [done | | done].
    intros [= <- <-]. fields. split_and!; try done; [by right | by eauto |].
    eexists. split; [|done]. split_and!; try done. by intros [].
  - rewrite enter_group_spec by done. cbn zeta.
    destruct (current_fragment s) as [f|] eqn:Ef; [done|].
    by intros [= <- <-].
  - rewrite exit_fragment_spec by done.
    destruct (list_pop (state_stack s)) as [[k' [pf pg]]|] eqn:Hpop; [done|].
    apply list_pop_None in Hpop. by intros [= <- <-].
Qed.

(** *** Counters of the other kinds *)

Lemma effect_other_kind c eff s s' k :
  has_effect c eff s s' → op_kind c ≠ Some k →
  counter_of k s' = counter_of k s ∧ ids_of k (heap s') = ids_of k (heap s).
Proof.
  intros Heff Hk.
  assert (∀ o, created c o s s' →
               counter_of k s' = counter_of k s ∧
               ids_of k (heap s ++ [o]) = ids_of k (heap s)) as Hcr.
  { intros o (_ & Hc & _ & Hcnt). rewrite Hcnt, ids_of_snoc.
    rewrite !decide_False by congruence. by rewrite app_nil_r. }
  destruct eff as [|o|o|o p]; simpl in Heff.
  - destruct Heff as (-> & _ & Hcnt). by rewrite Hcnt.
  - destruct Heff as (Ho & -> & _). by apply (Hcr o).
  - destruct Heff as (Ho & -> & _). by apply (Hcr o).
  - destruct Heff as (Ho & _ & -> & _). rewrite ids_of_alter. by apply (Hcr o).
Qed.

Lemma effect_counter_mono c eff s s' k :
  has_effect c eff s s' → (counter_of k s ≤ counter_of k s')%Z.
Proof.
  intros Heff.
  assert (∀ o, created c o s s' → (counter_of k s ≤ counter_of k s')%Z) as Hcr.
  { intros o (_ & _ & _ & Hcnt). rewrite Hcnt. destruct (decide _); lia. }
  destruct eff as [|o|o|o p]; simpl in Heff.
  - destruct Heff as (_ & _ & Hcnt). rewrite Hcnt. lia.
  - destruct Heff as (Ho & _). by apply (Hcr o).
  - destruct Heff as (Ho & _). by apply (Hcr o).
  - destruct Heff as (Ho & _). by apply (Hcr o).
Qed.

(** * Properties of the builder *)

(** What the driver prints after "Final Scenario". *)
Example main_rendered :
  ∃ r s,
    main init = Returned r s ∧
    print_scenario plain_repr (S (length (heap s))) (heap s) r 0 =
      Some ["- Message(1, ['data1', 'data2'])";
            "- Message(2, ['data3', 'data4'])";
            "- Fragment 1 (Fragment):";
            "  * Group 1 [Guard: x > 5] (Group):";
            "      - Message(3, ['data5'])";
            "      - State(4, Processing)";
            "  * Group 2 [Guard: x <= 5] (Group):";
            "      - Message(5, ['data6', 'data7'])";
            "- Message(6, ['data8'])"].
Proof. do 2 eexists. split; vm_compute; reflexivity. Qed.

(** [add_message] right after [enter_fragment] is refused, and so is
    [enter_group] at top level. *)
Example misuse_detected :
  (∃ s, run_ok [EnterFragment] init = Some s ∧
        ∃ e s', add_message ["data"] s = Raised e s' ∧ NoActiveGroup e) ∧
  (∃ e, enter_group None init = Raised e init ∧ NoActiveFragment e).
Proof.
  split.
  - eexists. split; [vm_compute; reflexivity|].
    eexists _, _. split; [vm_compute; reflexivity|]. by left.
  - eexists. split; [vm_compute; reflexivity | done].
Qed.

(** C1 (as amended).  The driver of the module runs without an
    exception, and [get_scenario()] then returns four top-level items: a
    Message, a Message, a Fragment with id 1 holding Group 1 (guard
    "x > 5", one Message then one State) and Group 2 (guard "x <= 5", one
    Message), and a trailing Message.  The driver creates six events, and
    their ids are 1 to 6 in call order; the fragment has id 1 and the
    groups ids 1 and 2. *)
Theorem main_scenario :
  ∃ r s,
    main init = Returned r s ∧
    mapM (view 3 (heap s)) r =
      Some [TMessage 1 ["data1"; "data2"];
            TMessage 2 ["data3"; "data4"];
            TFragment 1 "Fragment 1"
              [TGroup 1 "Group 1" (Some "x > 5")
                 [TMessage 3 ["data5"]; TState 4 "Processing"];
               TGroup 2 "Group 2" (Some "x <= 5")
                 [TMessage 5 ["data6"; "data7"]]];
            TMessage 6 ["data8"]] ∧
    ids_of KEvent (heap s) = [1; 2; 3; 4; 5; 6]%Z ∧
    ids_of KFragment (heap s) = [1]%Z ∧
    ids_of KGroup (heap s) = [1; 2]%Z.
Proof.
  do 2 eexists. split; [vm_compute; reflexivity|].
  vm_compute. repeat split.
Qed.

(** C1 as stated fails: the events of the driver do not carry the ids
    1 to 8. *)
Lemma main_scenario_ids_not_1_to_8 :
  ¬ ∃ r s, main init = Returned r s ∧ length r = 4%nat ∧
           ids_of KEvent (heap s) = [1; 2; 3; 4; 5; 6; 7; 8]%Z.
Proof.
  intros (r & s & Hmain & _ & Hids).
  vm_compute in Hmain. injection Hmain as <- <-. vm_compute in Hids. discriminate.
Qed.

Lemma alter_insert {A} (f : A → A) (l : list A) (i : nat) (x : A) :
  l !! i = Some x → alter f i l = <[i := f x]> l.
Proof. intros H. symmetry. by apply insert_alter. Qed.

Lemma add_event_placement ev s :
  wf s → placement s ev (add_event ev s).
Proof.
  intros Hwf. pose proof (wf_ctx _ Hwf) as Hctx.
  unfold placement. rewrite add_event_spec by done. cbn zeta.
  destruct (current_fragment s) as [f|] eqn:Ef;
    [destruct (current_group s) as [g|] eqn:Eg|].
  - destruct Hctx as [_ (i & n & gd & its & Hg)].
    pose proof (lookup_lt_Some _ _ _ Hg) as Hlt.
    eexists _, i, n, gd, its. split; [done|]. fields.
    split; [by apply lookup_attach_new|]. split; [done|]. split; [|done].
    by apply (alter_insert (append_child _) _ _ (Group i n gd its)), lookup_snoc_lt.
  - eexists _, _. split; [done|]. by left.
  - eexists. split; [done|]. fields. split; [|done]. by rewrite list_lookup_middle.
Qed.

Lemma enter_fragment_placement s :
  wf s →
  placement s (Fragment (fragment_counter s) ("Fragment " +:+ pretty (fragment_counter s)) [])
    (enter_fragment s).
Proof.
  intros Hwf. pose proof (wf_ctx _ Hwf) as Hctx.
  unfold placement. rewrite enter_fragment_spec by done. cbn zeta.
  destruct (current_fragment s) as [f|] eqn:Ef;
    [destruct (current_group s) as [g|] eqn:Eg|].
  - destruct Hctx as [_ (i & n & gd & its & Hg)].
    pose proof (lookup_lt_Some _ _ _ Hg) as Hlt.
    eexists _, i, n, gd, its. split; [done|]. fields.
    split; [by apply lookup_attach_new|]. split; [done|]. split; [|done].
    by apply (alter_insert (append_child _) _ _ (Group i n gd its)), lookup_snoc_lt.
  - eexists _, _. split; [done|]. by right.
  - eexists. split; [done|]. fields. split; [|done]. by rewrite list_lookup_middle.
Qed.

Lemma enter_fragment_returned s f s1 :
  wf s → enter_fragment s = Returned f s1 →
  wf s1 ∧ f = length (heap s) ∧
  current_fragment s1 = Some f ∧ current_group s1 = None ∧
  state_stack s1 = state_stack s ++ [(current_fragment s, current_group s)] ∧
  (current_fragment s = None ∨ ∃ g, current_group s = Some g).
Proof.
  intros Hwf Hr. pose proof (wf_enter_fragment s Hwf) as Hwf1.
  rewrite Hr in Hwf1. cbn [outcome_state] in Hwf1.
  rewrite enter_fragment_spec in Hr by apply Hwf. cbn zeta in Hr.
  destruct (current_fragment s) as [f0|] eqn:Ef;
    [destruct (current_group s) as [g|] eqn:Eg|]; [| done |];
    injection Hr as <- <-; fields; eauto 10.
Qed.

Lemma enter_group_returned guard s f :
  wf s → current_fragment s = Some f →
  ∃ s', enter_group guard s = Returned (length (heap s)) s' ∧ wf s' ∧
        current_fragment s' = Some f ∧ current_group s' = Some (length (heap s)) ∧
        state_stack s' = state_stack s ∧ base s' = base s.
Proof.
  intros Hwf Hf. pose proof (wf_enter_group guard s Hwf) as Hwf1.
  rewrite enter_group_spec in * by apply Hwf. cbn zeta in *. rewrite Hf in *.
  cbn [outcome_state] in Hwf1. eexists. by split_and!.
Qed.

Lemma exit_fragment_returned s k c :
  wf s → state_stack s = k ++ [c] →
  ∃ s', exit_fragment s = Returned tt s' ∧ wf s' ∧
        (current_fragment s', current_group s') = c ∧ state_stack s' = k ∧
        heap s' = heap s ∧ base s' = base s.
Proof.
  intros Hwf Hk. pose proof (wf_exit_fragment s Hwf) as Hwf1.
  rewrite exit_fragment_spec in * by apply Hwf.
  rewrite Hk, list_pop_snoc in *. destruct c as [pf pg].
  cbn [outcome_state] in Hwf1. eexists. by split_and!.
Qed.

(** C3.  In every reachable state, [add_message] and [add_state] create
    the event with the next event id and [enter_fragment] the fragment
    with the next fragment id; the new node goes to the end of the root
    sequence when no fragment is active, to the end of the current
    group's items when a fragment and a group are active, and the call
    raises NoActiveGroup exactly when a fragment is active and no group
    is.  A call that returns, returns the reference of the node it has
    created. *)
Theorem placement_rule (s : ScenarioBuilder) (exchanged_items : list string)
    (state_info : string) :
  reachable s →
  placement s (Message (event_counter s) exchanged_items) (add_message exchanged_items s) ∧
  placement s (State (event_counter s) state_info) (add_state state_info s) ∧
  placement s (Fragment (fragment_counter s) ("Fragment " +:+ pretty (fragment_counter s)) [])
    (enter_fragment s).
Proof.
  intros Hwf%reachable_wf. pose proof (wf_ctx _ Hwf) as Hctx.
  split; [|split].
  - rewrite add_message_spec. by apply add_event_placement.
  - rewrite add_state_spec. by apply add_event_placement.
  - by apply enter_fragment_placement.
Qed.

Lemma placement_rule_witness :
  reachable in_group_state ∧
  placement in_group_state (Message (event_counter in_group_state) ["data5"])
    (add_message ["data5"] in_group_state) ∧
  placement in_group_state (State (event_counter in_group_state) "Processing")
    (add_state "Processing" in_group_state) ∧
  placement in_group_state
    (Fragment (fragment_counter in_group_state)
       ("Fragment " +:+ pretty (fragment_counter in_group_state)) [])
    (enter_fragment in_group_state).
Proof.
  assert (reachable in_group_state) as Hs
    by (exists [EnterFragment; EnterGroup (Some "x > 5")]; exact eq_refl).
  split; [exact Hs | exact (placement_rule in_group_state ["data5"] "Processing" Hs)].
Defined.

(** C5.  From a reachable state in which [enter_fragment()] returns, the
    calls [enter_fragment(); enter_group(guard); exit_fragment()] all
    return, for any guard, and leave the current fragment and the current
    group (and the stack) as they were before [enter_fragment()]. *)
Theorem context_restoration (s s1 : ScenarioBuilder) (f : loc) (guard : option string) :
  reachable s →
  enter_fragment s = Returned f s1 →
  ∃ g s2 s3,
    enter_group guard s1 = Returned g s2 ∧
    exit_fragment s2 = Returned tt s3 ∧
    current_fragment s3 = current_fragment s ∧
    current_group s3 = current_group s ∧
    state_stack s3 = state_stack s.
Proof.
  intros Hwf%reachable_wf Hr.
  destruct (enter_fragment_returned _ _ _ Hwf Hr) as (Hwf1 & -> & Hcf1 & Hcg1 & Hk1 & _).
  destruct (enter_group_returned guard _ _ Hwf1 Hcf1) as (s2 & Hr2 & Hwf2 & _ & _ & Hk2 & _).
  rewrite Hk1 in Hk2.
  destruct (exit_fragment_returned _ _ _ Hwf2 Hk2) as (s3 & Hr3 & _ & Hc3 & Hk3 & _).
  exists (length (heap s1)), s2, s3. injection Hc3 as ? ?. by split_and!.
Qed.

Lemma context_restoration_witness :
  reachable in_group_state ∧
  ∃ f s1, enter_fragment in_group_state = Returned f s1 ∧
  ∃ g s2 s3,
    enter_group (Some "y") s1 = Returned g s2 ∧
    exit_fragment s2 = Returned tt s3 ∧
    current_fragment s3 = current_fragment in_group_state ∧
    current_group s3 = current_group in_group_state ∧
    state_stack s3 = state_stack in_group_state.
Proof.
  assert (reachable in_group_state) as Hs
    by (exists [EnterFragment; EnterGroup (Some "x > 5")]; exact eq_refl).
  split; [exact Hs|].
  eexists _, _. split; [vm_compute; reflexivity|].
  eapply (context_restoration in_group_state); [exact Hs|].
  vm_compute. reflexivity.
Defined.

(** C2.  In a reachable state, a call that raises raises one of the
    three errors of the builder, and leaves the root sequence, every
    object that existed before the call (so the children of every group
    and fragment), the current fragment, the current group and the stack
    as they were; whatever is attached after the call was attached
    before it, so the node the call may have constructed is attached to
    no container. *)
Theorem failed_call_leaves_model (s s' : ScenarioBuilder) (c : op) (e : exn) :
  reachable s →
  exec c s = Raised e s' →
  (NoActiveGroup e ∨ NoActiveFragment e ∨ EmptyContextStack e) ∧
  base s' = base s ∧
  current_fragment s' = current_fragment s ∧
  current_group s' = current_group s ∧
  state_stack s' = state_stack s ∧
  (∀ l o, heap s !! l = Some o → heap s' !! l = Some o) ∧
  (∀ l, attached s' l → attached s l ∧ (l < length (heap s))%nat).
Proof.
  intros Hwf%reachable_wf Hr.
  destruct (exec_raised _ _ _ _ Hwf Hr) as (Hcf & Hcg & Hk & Hb & Hc).
  assert ((NoActiveGroup e ∨ NoActiveFragment e ∨ EmptyContextStack e) ∧
          (s' = s ∨ ∃ o, children o = [] ∧ heap s' = heap s ++ [o])) as [He Hh].
  { destruct c; destruct Hc as (? & Hc); split; auto.
    - destruct Hc as (_ & _ & o & (Ho & _) & Hh & _). eauto.
    - destruct Hc as (_ & _ & o & (Ho & _) & Hh & _). eauto.
    - destruct Hc as (_ & _ & o & (Ho & _) & Hh & _). eauto.
    - left. apply Hc.
    - left. apply Hc. }
  split_and!; try done.
  - intros l o Hl. destruct Hh as [->|(o' & _ & ->)]; [done|].
    by apply lookup_snoc_lt.
  - intros l Hatt.
    assert (attached s l) as Hatt'.
    { destruct Hh as [->|(o' & Ho' & Hh)]; [done|]. by eapply attached_create. }
    split; [done | by apply attached_lt].
Qed.

Lemma failed_call_leaves_model_witness :
  reachable in_fragment_state ∧
  ∃ e s',
    exec (AddMessage ["data5"]) in_fragment_state = Raised e s' ∧
    (NoActiveGroup e ∨ NoActiveFragment e ∨ EmptyContextStack e) ∧
    base s' = base in_fragment_state ∧
    current_fragment s' = current_fragment in_fragment_state ∧
    current_group s' = current_group in_fragment_state ∧
    state_stack s' = state_stack in_fragment_state ∧
    (∀ l o, heap in_fragment_state !! l = Some o → heap s' !! l = Some o) ∧
    (∀ l, attached s' l →
          attached in_fragment_state l ∧ (l < length (heap in_fragment_state))%nat).
Proof.
  assert (reachable in_fragment_state) as Hs
    by (exists [AddMessage ["data1"; "data2"]; EnterFragment]; exact eq_refl).
  split; [exact Hs|].
  eexists _, _. split; [vm_compute; reflexivity|].
  eapply (failed_call_leaves_model in_fragment_state _ (AddMessage ["data5"]));
    [exact Hs|].
  vm_compute. reflexivity.
Defined.

(** C10.  In a reachable state, a call to [add_message], [add_state] or
    [enter_fragment] that raises NoActiveGroup has still advanced the
    counter of the kind of node it constructs.  The id it has consumed
    stays in use by a node that is never attached, whatever calls
    follow: the ids of the attached nodes of that kind skip it.  And the
    first attached event need not have id 1: after [enter_fragment();
    add_message(..)] (which raises) [enter_group(); add_message(..)], the
    only attached event has id 2. *)
Theorem failed_call_consumes_id (s s1 : ScenarioBuilder) (c : op) (e : exn) :
  reachable s →
  exec c s = Raised e s1 →
  NoActiveGroup e →
  (∃ k, op_kind c = Some k ∧
        counter_of k s1 = (counter_of k s + 1)%Z ∧
        ∀ ops,
          counter_of k s ∈ ids_of k (heap (run ops s1)) ∧
          counter_of k s ∉ attached_ids k (run ops s1)) ∧
  attached_ids KEvent
    (run [EnterFragment; AddMessage ["a"]; EnterGroup None; AddMessage ["b"]] init)
    = [2%Z].
Proof.
  intros Hwf%reachable_wf Hr He. split; [|by vm_compute].
  destruct (exec_raised _ _ _ _ Hwf Hr) as (_ & _ & _ & Hb & Hc).
  assert (∃ o, has_effect c (Create o) s s1) as [o ((Ho & Hk & Hid & Hcnt) & Hh & _)].
  { destruct c; try (by destruct Hc as (_ & _ & _ & ?)).
    - destruct Hc as [Hc _]. destruct He as [He|He]; by rewrite He in Hc.
    - destruct Hc as [Hc _]. destruct He as [He|He]; by rewrite He in Hc. }
  exists (kind_of o). split; [done|]. split.
  { rewrite Hcnt. by rewrite decide_True. }
  intros ops.
  assert (wf s1) as Hwf1.
  { pose proof (wf_step c s Hwf) as H. by rewrite Hr in H. }
  pose proof (run_wf ops s1 Hwf1) as Hwf2.
  assert (heap s1 !! length (heap s) = Some o) as Hnew
    by by rewrite Hh, list_lookup_middle.
  destruct (run_heap_ext ops s1 Hwf1 _ _ Hnew) as (o' & Hnew' & Hext).
  split.
  - apply elem_of_ids_of. exists (length (heap s)), o'.
    split_and!; [done | by apply obj_ext_kind | by rewrite (obj_ext_id _ _ Hext)].
  - intros (l & ob & Hl & Hkind & Hatt & Hobid)%elem_of_attached_ids.
    assert (l = length (heap s)) as ->.
    { apply (wf_ids_unique (run ops s1) _ _ ob o'); try done.
      - rewrite (obj_ext_kind _ _ Hext). done.
      - rewrite (obj_ext_id _ _ Hext). congruence. }
    apply run_attached_old in Hatt; [| done |].
    + eapply attached_create in Hatt; [| done | done | done].
      apply attached_lt in Hatt; [lia | done].
    + rewrite Hh, length_app. simpl. lia.
Qed.

Lemma failed_call_consumes_id_witness :
  reachable in_fragment_state ∧
  ∃ e s1,
    exec EnterFragment in_fragment_state = Raised e s1 ∧
    NoActiveGroup e ∧
    (∃ k, op_kind EnterFragment = Some k ∧
          counter_of k s1 = (counter_of k in_fragment_state + 1)%Z ∧
          ∀ ops,
            counter_of k in_fragment_state ∈ ids_of k (heap (run ops s1)) ∧
            counter_of k in_fragment_state ∉ attached_ids k (run ops s1)) ∧
    attached_ids KEvent
      (run [EnterFragment; AddMessage ["a"]; EnterGroup None; AddMessage ["b"]] init)
      = [2%Z].
Proof.
  assert (reachable in_fragment_state) as Hs
    by (exists [AddMessage ["data1"; "data2"]; EnterFragment]; exact eq_refl).
  split; [exact Hs|].
  eexists _, _. split; [vm_compute; reflexivity|].
  split; [right; exact eq_refl|].
  eapply (failed_call_consumes_id in_fragment_state _ EnterFragment);
    [exact Hs | | right; exact eq_refl].
  vm_compute. reflexivity.
Defined.

(** C6.  After any sequence of calls on a fresh builder: for each kind
    (event, group, fragment) the ids of the nodes created so far, in
    creation order, are 1, 2, ... up to the counter of that kind minus
    one, so they start at 1, are strictly increasing and never repeat; a
    further call changes neither the kind nor the id of an existing
    node, never lowers a counter, and leaves the counter and the ids of
    every kind other than the one it constructs untouched. *)
Theorem id_counters (ops : list op) (c : op) :
  let s := run ops init in
  let s' := outcome_state (exec c s) in
  (∀ k, ids_of k (heap s) = seqZ 1 (counter_of k s - 1)) ∧
  (∀ k i a, ids_of k (heap s) !! i = Some a → a = (Z.of_nat i + 1)%Z) ∧
  (∀ k i j a b, ids_of k (heap s) !! i = Some a → ids_of k (heap s) !! j = Some b →
                (i < j)%nat → (a < b)%Z) ∧
  (∀ k, NoDup (ids_of k (heap s))) ∧
  (∀ l o, heap s !! l = Some o →
          ∃ o', heap s' !! l = Some o' ∧ kind_of o' = kind_of o ∧ obj_id o' = obj_id o) ∧
  (∀ k, (counter_of k s ≤ counter_of k s')%Z) ∧
  (∀ k, op_kind c ≠ Some k →
        counter_of k s' = counter_of k s ∧ ids_of k (heap s') = ids_of k (heap s)).
Proof.
  intros s s'.
  assert (wf s) as Hwf by (apply run_wf, wf_init).
  destruct (exec_effect c s Hwf) as [eff Heff]. fold s' in Heff.
  assert (∀ k, ids_of k (heap s) = seqZ 1 (counter_of k s - 1)) as Hids
    by (intros k; apply (wf_ids _ Hwf k)).
  split_and!; try done.
  - intros k i a. rewrite Hids. intros [-> _]%lookup_seqZ. lia.
  - intros k i j a b. rewrite Hids.
    intros [-> _]%lookup_seqZ [-> _]%lookup_seqZ. lia.
  - intros k. rewrite Hids. apply NoDup_seqZ.
  - intros l o Hl.
    destruct (effect_heap_ext _ _ _ _ Heff _ _ Hl) as (o' & Hl' & Hext).
    exists o'. split_and!; [done | by apply obj_ext_kind | by apply obj_ext_id].
  - intros k. by eapply effect_counter_mono.
  - intros k. by eapply effect_other_kind.
Qed.

Lemma run_track_snoc ops c :
  run_track (ops ++ [c]) =
    let r := exec c (run_track ops).1 in
    (outcome_state r, track c r (run_track ops).2).
Proof. unfold run_track. by rewrite foldl_app. Qed.

Lemma run_track_fst ops : (run_track ops).1 = run ops init.
Proof.
  induction ops as [|c ops IH] using rev_ind; [done|].
  rewrite run_track_snoc, run_snoc. cbn zeta. cbn [fst]. by rewrite IH.
Qed.

Lemma saved_snoc_inv open k c :
  saved open = k ++ [c] → ∃ x rest, open = x :: rest ∧ saved rest = k ∧ ctx_of rest = c.
Proof.
  destruct open as [|x rest]; simpl.
  - by destruct k.
  - intros [? ?]%app_inj_tail. eauto.
Qed.

(** The builder's context is the innermost open fragment and its last
    group, and its stack is what entering the open fragments has saved. *)
Lemma run_track_ctx ops :
  (current_fragment (run_track ops).1, current_group (run_track ops).1)
    = ctx_of (run_track ops).2 ∧
  state_stack (run_track ops).1 = saved (run_track ops).2.
Proof.
  induction ops as [|c ops IH] using rev_ind; [done|].
  assert (wf (run_track ops).1) as Hwf by (rewrite run_track_fst; apply run_wf, wf_init).
  pose proof (wf_ctx _ Hwf) as Hctx. pose proof (wf_stack _ Hwf) as Hk.
  rewrite run_track_snoc. cbn zeta. cbn [fst snd].
  destruct (run_track ops) as [s open]. cbn [fst snd] in *.
  destruct IH as [IHc IHk].
  assert (∀ ev, kind_of ev = KEvent →
            let r := match add_event ev s with
                     | Returned l s' => Returned (Some l) s'
                     | Raised e s' => Raised e s'
                     end in
            (current_fragment (outcome_state r), current_group (outcome_state r))
              = (current_fragment s, current_group s) ∧
            state_stack (outcome_state r) = state_stack s) as Hev.
  { intros ev Hkind. rewrite add_event_spec by done. cbn zeta.
    by destruct (current_fragment s) as [f|]; [destruct (current_group s) as [g|]|]. }
  rewrite exec_eq. destruct c as [its|info| |guard|]; cbn [track].
  - rewrite add_message_spec.
    destruct (Hev (Message (event_counter s) its) eq_refl) as [H1 H2].
    cbn zeta in H1, H2. by rewrite H1, H2.
  - rewrite add_state_spec.
    destruct (Hev (State (event_counter s) info) eq_refl) as [H1 H2].
    cbn zeta in H1, H2. by rewrite H1, H2.
  - rewrite enter_fragment_spec by done. cbn zeta.
    destruct (current_fragment s) as [f|] eqn:Ef;
      [destruct (current_group s) as [g|] eqn:Eg|]; cbn [outcome_state track]; fields.
    + split; [done|]. simpl. by rewrite IHk, <- IHc.
    + done.
    + destruct (current_group s) as [g|] eqn:Eg; [done|].
      split; [done|]. simpl. by rewrite IHk, <- IHc.
  - rewrite enter_group_spec by done. cbn zeta.
    destruct (current_fragment s) as [f|] eqn:Ef; cbn [outcome_state track]; fields;
      [|by rewrite Ef].
    destruct open as [|[f' g'] rest]; simpl in IHc; [done|].
    injection IHc as -> _. done.
  - rewrite exit_fragment_spec by done.
    destruct (list_pop (state_stack s)) as [[k' [pf pg]]|] eqn:Hpop;
      cbn [outcome_state track]; fields; [|done].
    apply list_pop_Some in Hpop. rewrite Hpop in IHk. symmetry in IHk.
    apply saved_snoc_inv in IHk as (x & rest & -> & <- & Hrest). done.
Qed.

(** C8.  After any sequence of calls on a fresh builder, the current
    fragment is the innermost fragment entered and not yet exited (none
    when there is none) and the current group the group entered last in
    it (none when there is none); the stack holds what entering the open
    fragments has saved.  When the stack is not empty there is a current
    fragment, so [exit_fragment] can read its name; and a current group
    comes with a current fragment that holds it among its groups. *)
Theorem active_context (ops : list op) :
  let s := run ops init in
  let open := (run_track ops).2 in
  (current_fragment s, current_group s) = ctx_of open ∧
  state_stack s = saved open ∧
  length (state_stack s) = length open ∧
  (state_stack s ≠ [] → ∃ f, current_fragment s = Some f ∧ is_fragment (heap s) f) ∧
  (∀ g, current_group s = Some g →
        ∃ f, current_fragment s = Some f ∧ group_of (heap s) f g ∧ is_group (heap s) g).
Proof.
  intros s open.
  assert (wf s) as Hwf by (apply run_wf, wf_init).
  pose proof (wf_ctx _ Hwf) as Hctx. pose proof (wf_stack _ Hwf) as Hk.
  destruct (run_track_ctx ops) as [Hc Hs]. rewrite run_track_fst in Hc, Hs.
  fold s open in Hc, Hs.
  split_and!; try done.
  - rewrite Hs. clear. induction open as [|x open IH]; [done|].
    simpl. rewrite length_app, IH. simpl. lia.
  - intros Hne. destruct (state_stack s) as [|c k]; [done|].
    destruct Hk as (_ & Hcf & _).
    destruct (current_fragment s) as [f|]; [|done].
    exists f. split; [done|]. by eapply ctx_ok_fragment.
  - intros g Hg. rewrite Hg in Hctx.
    destruct (current_fragment s) as [f|]; [|done].
    exists f. by destruct Hctx.
Qed.

Lemma enter_fragment_succeeds s :
  wf s → (current_fragment s = None ∨ ∃ g, current_group s = Some g) →
  ∃ f s1, enter_fragment s = Returned f s1.
Proof.
  intros Hwf Hc. rewrite enter_fragment_spec by apply Hwf. cbn zeta.
  destruct (current_fragment s) as [f|];
    [destruct (current_group s) as [g|]|]; eauto.
  by destruct Hc as [?|[? ?]].
Qed.

Lemma nested_run_ok guards s :
  wf s → (current_fragment s = None ∨ ∃ g, current_group s = Some g) →
  ∃ s1 ks,
    run_ok (nested guards) s = Some s1 ∧ wf s1 ∧
    state_stack s1 = state_stack s ++ (current_fragment s, current_group s) :: ks ∧
    length ks = length guards.
Proof.
  revert s. induction guards as [|guard guards IH]; intros s Hwf Hc.
  - destruct (enter_fragment_succeeds s Hwf Hc) as (f & s1 & Hr).
    destruct (enter_fragment_returned _ _ _ Hwf Hr) as (Hwf1 & _ & _ & _ & Hk1 & _).
    exists s1, []. cbn [nested run_ok]. rewrite exec_eq, Hr. by split_and!.
  - destruct (enter_fragment_succeeds s Hwf Hc) as (f & s1 & Hr).
    destruct (enter_fragment_returned _ _ _ Hwf Hr) as (Hwf1 & _ & Hcf1 & _ & Hk1 & _).
    destruct (enter_group_returned guard _ _ Hwf1 Hcf1)
      as (s2 & Hr2 & Hwf2 & Hcf2 & Hcg2 & Hk2 & _).
    destruct (IH s2 Hwf2) as (s3 & ks & Hr3 & Hwf3 & Hk3 & Hlen); [by eauto|].
    exists s3, ((current_fragment s2, current_group s2) :: ks).
    cbn [nested run_ok]. rewrite exec_eq, Hr, exec_eq, Hr2.
    split_and!; [done | done | | by simpl; rewrite Hlen].
    by rewrite Hk3, Hk2, Hk1, <- app_assoc.
Qed.

Lemma exits_run_ok ks s k0 c :
  wf s → state_stack s = k0 ++ c :: ks →
  ∃ s', run_ok (replicate (S (length ks)) ExitFragment) s = Some s' ∧ wf s' ∧
        state_stack s' = k0 ∧ (current_fragment s', current_group s') = c.
Proof.
  revert s. induction ks as [|x ks IH] using rev_ind; intros s Hwf Hk.
  - destruct (exit_fragment_returned _ _ _ Hwf Hk) as (s' & Hr & Hwf' & Hc & Hk' & _).
    exists s'. cbn [length replicate run_ok]. rewrite exec_eq, Hr. by split_and!.
  - assert (state_stack s = (k0 ++ c :: ks) ++ [x]) as Hk2
      by by rewrite Hk, <- app_assoc.
    destruct (exit_fragment_returned _ _ _ Hwf Hk2) as (s1 & Hr & Hwf1 & _ & Hk1 & _).
    destruct (IH s1 Hwf1 Hk1) as (s' & Hr' & ?).
    exists s'. rewrite length_app, Nat.add_1_r.
    cbn [replicate run_ok]. rewrite exec_eq, Hr. by split.
Qed.

Lemma exit_fragment_top_level s :
  wf s → state_stack s = [] →
  exit_fragment s = Raised (Exception msg_empty_stack) s.
Proof.
  intros Hwf Hk. rewrite exit_fragment_spec by apply Hwf. by rewrite Hk.
Qed.

Lemma wf_top_level s : wf s → state_stack s = [] → top_level s.
Proof.
  intros Hwf Hk. pose proof (wf_stack _ Hwf) as Hs. pose proof (wf_ctx _ Hwf) as Hc.
  rewrite Hk in Hs. simpl in Hs. rewrite Hs in Hc.
  split_and!; try done. by destruct (current_group s).
Qed.

(** Bare repetitions: in a fragment without a group every further
    [enter_fragment()] is refused, and at top level every
    [exit_fragment()] is. *)
Lemma run_enter_refused n s f :
  wf s → current_fragment s = Some f → current_group s = None →
  let s' := run (replicate n EnterFragment) s in
  wf s' ∧ current_fragment s' = Some f ∧ current_group s' = None ∧
  state_stack s' = state_stack s.
Proof.
  revert s. induction n as [|n IH]; intros s Hwf Hcf Hcg; [done|].
  cbn zeta. cbn [replicate]. rewrite run_cons.
  pose proof (wf_step EnterFragment s Hwf) as Hwf1.
  destruct (exec EnterFragment s) as [v s1|e s1] eqn:Hr.
  - rewrite exec_eq, enter_fragment_spec in Hr by apply Hwf. cbn zeta in Hr.
    by rewrite Hcf, Hcg in Hr.
  - destruct (exec_raised _ _ _ _ Hwf Hr) as (Hcf1 & Hcg1 & Hk1 & _).
    cbn [outcome_state] in *.
    destruct (IH s1 Hwf1) as (? & ? & ? & ?); [congruence | congruence |].
    split_and!; congruence.
Qed.

Lemma run_exit_refused n s :
  wf s → state_stack s = [] → run (replicate n ExitFragment) s = s.
Proof.
  intros Hwf Hk. induction n as [|n IH]; [done|].
  cbn [replicate]. rewrite run_cons, exec_eq, exit_fragment_top_level by done.
  apply IH.
Qed.

(** C4.  On a fresh builder, N >= 1 nested [enter_fragment()] calls (each
    further fragment opened inside a group of the previous one, whatever
    the guards) followed by N [exit_fragment()] calls all return and
    leave the builder at top level: no current fragment, no current
    group, an empty stack; one more [exit_fragment()] raises
    EmptyContextStack.  The same final context is reached when the N
    [enter_fragment()] calls are made back to back, the second to the
    N-th then being refused with NoActiveGroup, and the caller goes on. *)
Theorem stack_discipline (guards : list (option string)) (n : nat) :
  (∃ s, run_ok (nested guards ++ replicate (S (length guards)) ExitFragment) init
          = Some s ∧
        top_level s ∧
        ∃ e, exit_fragment s = Raised e s ∧ EmptyContextStack e) ∧
  (let s := run (replicate (S n) EnterFragment ++ replicate (S n) ExitFragment) init in
   top_level s ∧
   ∃ e, exit_fragment s = Raised e s ∧ EmptyContextStack e).
Proof.
  split.
  - destruct (nested_run_ok guards init wf_init) as (s1 & ks & Hr1 & Hwf1 & Hk1 & Hlen);
      [by left|].
    destruct (exits_run_ok ks s1 [] (None, None) Hwf1 Hk1) as (s & Hr & Hwf & Hk & Hc).
    exists s. rewrite run_ok_app, Hr1. simpl. rewrite <- Hlen. split; [done|].
    split; [by apply wf_top_level|].
    eexists. split; [by apply exit_fragment_top_level | done].
  - intros s. unfold s. rewrite run_app.
    change (replicate (S n) EnterFragment)
      with (EnterFragment :: replicate n EnterFragment).
    change (replicate (S n) ExitFragment)
      with (ExitFragment :: replicate n ExitFragment).
    rewrite (run_cons EnterFragment).
    destruct (enter_fragment_succeeds init wf_init) as (f & s1 & Hr); [by left|].
    destruct (enter_fragment_returned _ _ _ wf_init Hr) as (Hwf1 & _ & Hcf1 & Hcg1 & Hk1 & _).
    rewrite (exec_eq EnterFragment), Hr. cbn [outcome_state].
    destruct (run_enter_refused n s1 f Hwf1 Hcf1 Hcg1) as (Hwf2 & Hcf2 & Hcg2 & Hk2).
    rewrite Hk1 in Hk2. simpl in Hk2.
    destruct (exit_fragment_returned _ [] _ Hwf2 Hk2) as (s3 & Hr3 & Hwf3 & Hc3 & Hk3 & _).
    rewrite (run_cons ExitFragment), (exec_eq ExitFragment), Hr3. cbn [outcome_state].
    rewrite run_exit_refused by done.
    split; [by apply wf_top_level|].
    eexists. split; [by apply exit_fragment_top_level | done].
Qed.

(** *** Exited fragments stay as they are *)

(** How a call moves the context: not at all, into a new fragment, or
    back to the saved one. *)
Lemma exec_context c s :
  wf s →
  let s' := outcome_state (exec c s) in
  (current_fragment s' = current_fragment s ∧ state_stack s' = state_stack s) ∨
  (current_fragment s' = Some (length (heap s)) ∧
   state_stack s' = state_stack s ++ [(current_fragment s, current_group s)]) ∨
  (∃ pg, state_stack s = state_stack s' ++ [(current_fragment s', pg)]).
Proof.
  intros Hwf. pose proof (wf_ctx _ Hwf) as Hctx. pose proof (wf_stack _ Hwf) as Hk.
  cbn zeta. rewrite exec_state.
  assert (∀ ev, current_fragment (outcome_state (add_event ev s)) = current_fragment s ∧
                state_stack (outcome_state (add_event ev s)) = state_stack s) as Hev.
  { intros ev. rewrite add_event_spec by done. cbn zeta.
    by destruct (current_fragment s) as [f|]; [destruct (current_group s) as [g|]|]. }
  destruct c as [its|info| |guard|].
  - left. rewrite add_message_spec. apply Hev.
  - left. rewrite add_state_spec. apply Hev.
  - rewrite enter_fragment_spec by done. cbn zeta.
    destruct (current_fragment s) as [f|] eqn:Ef;
      [destruct (current_group s) as [g|] eqn:Eg|]; cbn [outcome_state]; fields.
    + right. by left.
    + by left.
    + right. by left.
  - left. rewrite enter_group_spec by done. cbn zeta.
    by destruct (current_fragment s) as [f|] eqn:Ef.
  - rewrite exit_fragment_spec by done.
    destruct (list_pop (state_stack s)) as [[k' [pf pg]]|] eqn:Hpop;
      cbn [outcome_state]; fields; [|by left].
    right. right. exists pg. by apply list_pop_Some.
Qed.

(** A call touches no fragment but the current one. *)
Lemma exec_fragment_unchanged c s f i n gs :
  wf s → heap s !! f = Some (Fragment i n gs) → current_fragment s ≠ Some f →
  heap (outcome_state (exec c s)) !! f = Some (Fragment i n gs).
Proof.
  intros Hwf Hf Hne. pose proof (wf_ctx _ Hwf) as Hctx. pose proof (wf_stack _ Hwf) as Hk.
  assert (∀ g o, current_group s = Some g →
            alter (append_child (length (heap s))) g (heap s ++ [o]) !! f
              = Some (Fragment i n gs)) as Hunder.
  { intros g o Eg. rewrite list_lookup_alter_ne; [by apply lookup_snoc_lt|].
    intros ->. rewrite Eg in Hctx.
    destruct (current_fragment s); [|done].
    destruct Hctx as [_ (? & ? & ? & ? & Hg)]. congruence. }
  rewrite exec_state.
  assert (∀ ev, heap (outcome_state (add_event ev s)) !! f = Some (Fragment i n gs)) as Hev.
  { intros ev. rewrite add_event_spec by done. cbn zeta.
    destruct (current_fragment s) as [f0|] eqn:Ef;
      [destruct (current_group s) as [g|] eqn:Eg|]; cbn [outcome_state]; fields;
      [by eapply Hunder | by apply lookup_snoc_lt | by apply lookup_snoc_lt]. }
  destruct c as [its|info| |guard|].
  - rewrite add_message_spec. apply Hev.
  - rewrite add_state_spec. apply Hev.
  - rewrite enter_fragment_spec by done. cbn zeta.
    destruct (current_fragment s) as [f0|] eqn:Ef;
      [destruct (current_group s) as [g|] eqn:Eg|]; cbn [outcome_state]; fields;
      [by eapply Hunder | by apply lookup_snoc_lt | by apply lookup_snoc_lt].
  - rewrite enter_group_spec by done. cbn zeta.
    destruct (current_fragment s) as [f0|] eqn:Ef; cbn [outcome_state]; fields; [|done].
    rewrite list_lookup_alter_ne by congruence. by apply lookup_snoc_lt.
  - rewrite exit_fragment_spec by done.
    by destruct (list_pop (state_stack s)) as [[k' [pf pg]]|].
Qed.

Lemma exec_inactive c s f :
  wf s → (f < length (heap s))%nat → inactive s f →
  inactive (outcome_state (exec c s)) f.
Proof.
  intros Hwf Hlt [Hcf Hk]. unfold inactive.
  destruct (exec_context c s Hwf) as [[-> ->]|[[-> ->]|[pg Hpop]]].
  - done.
  - split; [intros [= ?]; lia|].
    apply Forall_app. split; [done|]. by apply Forall_singleton.
  - rewrite Hpop in Hk. apply Forall_app in Hk as [Hk Hc].
    rewrite Forall_singleton in Hc. by split.
Qed.

Lemma run_inactive_fragment ops s f i n gs :
  wf s → heap s !! f = Some (Fragment i n gs) → inactive s f →
  heap (run ops s) !! f = Some (Fragment i n gs).
Proof.
  revert s. induction ops as [|c ops IH]; intros s Hwf Hf Hin; [done|].
  rewrite run_cons. apply IH.
  - by apply wf_step.
  - apply exec_fragment_unchanged; [done | done | apply Hin].
  - apply exec_inactive; [done | by eapply lookup_lt_Some | done].
Qed.

(** The builder holds no reference outside the store. *)
Lemma wf_context_lt s f :
  wf s → (length (heap s) ≤ f)%nat → inactive s f.
Proof.
  intros Hwf Hf. pose proof (wf_ctx _ Hwf) as Hctx. pose proof (wf_stack _ Hwf) as Hk.
  split.
  - intros Hcf. rewrite Hcf in Hctx. apply ctx_ok_fragment in Hctx as (? & ? & ? & Hl).
    apply lookup_lt_Some in Hl. lia.
  - destruct (state_stack s) as [|c k]; [done|].
    destruct Hk as (-> & _ & Hall). apply Forall_cons. split; [done|].
    eapply Forall_impl; [done|]. intros [pf pg] [(f' & g' & [= -> ->]) Hc] [= ->].
    apply ctx_ok_fragment in Hc as (? & ? & ? & Hl).
    apply lookup_lt_Some in Hl. lia.
Qed.

(** C9.  From a reachable state in which [enter_fragment()] returns,
    [enter_fragment(); exit_fragment()] with no [enter_group()] in
    between is accepted: both calls return, and the current fragment,
    the current group and the stack are as before.  The new fragment is
    the last element of its parent container (the root sequence at top
    level, the items of the current group otherwise), and whatever calls
    follow it stays there with an empty list of groups. *)
Theorem empty_fragment_accepted (s s1 : ScenarioBuilder) (f : loc) :
  reachable s →
  enter_fragment s = Returned f s1 →
  ∃ s2,
    exit_fragment s1 = Returned tt s2 ∧
    current_fragment s2 = current_fragment s ∧
    current_group s2 = current_group s ∧
    state_stack s2 = state_stack s ∧
    match current_group s with
    | None => base s2 = base s ++ [f]
    | Some g => ∃ i n gd its, heap s !! g = Some (Group i n gd its) ∧
                              heap s2 !! g = Some (Group i n gd (its ++ [f]))
    end ∧
    ∀ ops,
      heap (run ops s2) !! f =
        Some (Fragment (fragment_counter s)
                ("Fragment " +:+ pretty (fragment_counter s)) []) ∧
      match current_group s with
      | None => f ∈ base (run ops s2)
      | Some g => ∃ o, heap (run ops s2) !! g = Some o ∧ f ∈ children o
      end.
Proof.
  intros Hwf%reachable_wf Hr.
  destruct (enter_fragment_returned _ _ _ Hwf Hr) as (Hwf1 & -> & Hcf1 & Hcg1 & Hk1 & Hc).
  destruct (exit_fragment_returned _ _ _ Hwf1 Hk1) as (s2 & Hr2 & Hwf2 & Hc2 & Hk2 & Hh2 & Hb2).
  injection Hc2 as Hcf2 Hcg2.
  pose proof (enter_fragment_placement s Hwf) as Hpl. unfold placement in Hpl.
  cbn zeta in Hpl. rewrite Hr in Hpl. pose proof (wf_ctx _ Hwf) as Hctx.
  set (frag := Fragment (fragment_counter s)
                 ("Fragment " +:+ pretty (fragment_counter s)) []) in *.
  assert (heap s2 !! length (heap s) = Some frag ∧
          match current_group s with
          | None => base s2 = base s ++ [length (heap s)]
          | Some g => ∃ i n gd its, heap s !! g = Some (Group i n gd its) ∧
              heap s2 !! g = Some (Group i n gd (its ++ [length (heap s)]))
          end) as [Hf Hparent].
  { rewrite Hh2, Hb2.
    destruct (current_fragment s) as [f0|] eqn:Ef;
      [destruct (current_group s) as [g|] eqn:Eg|].
    - destruct Hpl as (s' & i & n & gd & its & [= <-] & Hl & Hg & Hh & Hb).
      split; [done|]. exists i, n, gd, its. split; [done|].
      rewrite Hh. apply list_lookup_insert_eq.
      rewrite length_app. apply lookup_lt_Some in Hg. lia.
    - by destruct Hpl as (? & ? & ? & _).
    - destruct Hpl as (s' & [= <-] & Hl & Hh & Hb).
      destruct (current_group s); [done|]. by split. }
  exists s2. split_and!; try done.
  intros ops. split.
  - apply run_inactive_fragment; [done | done |].
    rewrite <- Hcf2, <- Hk2 in *.
    split; [|].
    + intros Hcf. pose proof (wf_context_lt s (length (heap s)) Hwf) as [H _]; [lia|].
      by rewrite <- Hcf2 in H.
    + pose proof (wf_context_lt s (length (heap s)) Hwf) as [_ H]; [lia|].
      by rewrite <- Hk2 in H.
  - pose proof (run_heap_ext ops s2 Hwf2) as Hext.
    pose proof (run_base ops s2 Hwf2) as Hbase.
    destruct (current_group s) as [g|].
    + destruct Hparent as (i & n & gd & its & _ & Hg).
      destruct (Hext _ _ Hg) as (o' & Hg' & Hoext).
      exists o'. split; [done|]. eapply elem_of_prefix; [|by apply obj_ext_children].
      simpl. apply elem_of_app. right. by apply list_elem_of_singleton.
    + eapply elem_of_prefix; [|done]. rewrite Hparent.
      apply elem_of_app. right. by apply list_elem_of_singleton.
Qed.

Lemma empty_fragment_accepted_witness :
  reachable in_group_state ∧
  ∃ f s1, enter_fragment in_group_state = Returned f s1 ∧
  ∃ s2,
    exit_fragment s1 = Returned tt s2 ∧
    current_fragment s2 = current_fragment in_group_state ∧
    current_group s2 = current_group in_group_state ∧
    state_stack s2 = state_stack in_group_state ∧
    match current_group in_group_state with
    | None => base s2 = base in_group_state ++ [f]
    | Some g => ∃ i n gd its, heap in_group_state !! g = Some (Group i n gd its) ∧
                              heap s2 !! g = Some (Group i n gd (its ++ [f]))
    end ∧
    ∀ ops,
      heap (run ops s2) !! f =
        Some (Fragment (fragment_counter in_group_state)
                ("Fragment " +:+ pretty (fragment_counter in_group_state)) []) ∧
      match current_group in_group_state with
      | None => f ∈ base (run ops s2)
      | Some g => ∃ o, heap (run ops s2) !! g = Some o ∧ f ∈ children o
      end.
Proof.
  assert (reachable in_group_state) as Hs
    by (exists [EnterFragment; EnterGroup (Some "x > 5")]; exact eq_refl).
  split; [exact Hs|].
  eexists _, _. split; [vm_compute; reflexivity|].
  eapply (empty_fragment_accepted in_group_state); [exact Hs|].
  vm_compute. reflexivity.
Defined.

(** *** Rendering a consistent model *)

Lemma string_app_assoc (s1 s2 s3 : string) :
  (s1 +:+ s2) +:+ s3 = s1 +:+ (s2 +:+ s3).
Proof.
  induction s1 as [|a s1 IH]; [done|].
  change (String a ((s1 +:+ s2) +:+ s3) = String a (s1 +:+ (s2 +:+ s3))).
  by rewrite IH.
Qed.

Lemma mapM_snoc_Some {A B} (f : A → option B) (l : list A) (x : A) ks y :
  mapM f l = Some ks → f x = Some y → mapM f (l ++ [x]) = Some (ks ++ [y]).
Proof.
  intros Hl Hx. apply mapM_Some, Forall2_app; [by apply mapM_Some|].
  by apply Forall2_cons.
Qed.

Section RenderingFacts.
Variable repr_str : string → string.

Lemma repr_event fuel h l o :
  h !! l = Some o → kind_of o = KEvent → is_Some (repr repr_str (S fuel) h l).
Proof. intros Hl Hk. simpl. rewrite Hl. by destruct o. Qed.

(** [print_scenario] returns on a typed store, given fuel for the
    distance between the items and the end of the store. *)
Lemma print_scenario_total h :
  heap_typed h →
  ∀ fuel items indent,
    (1 ≤ fuel)%nat →
    Forall (λ l, is_item h l ∧ (length h < l + fuel)%nat) items →
    is_Some (print_scenario repr_str fuel h items indent).
Proof.
  intros Hh. induction fuel as [|fuel IH]; intros items indent Hfuel Hitems; [lia|].
  cbn [print_scenario]. apply fmap_is_Some, mapM_is_Some.
  eapply Forall_impl; [done|]. intros l [(o & Hl & Hkind) Hlen]. unfold compose.
  rewrite Hl. pose proof (Hh l o Hl) as Hgs.
  destruct o as [i x|i x|i n gd its|i n gs]; [| |done|].
  - by destruct (repr_event fuel h l _ Hl eq_refl) as [r ->].
  - by destruct (repr_event fuel h l _ Hl eq_refl) as [r ->].
  - assert (is_Some (mapM (λ group,
      match h !! group with
      | Some (Group _ gn gd its) =>
          sub ← print_scenario repr_str fuel h its (indent + 3);
          Some (group_line (str_mul "  " indent) gn gd :: sub)
      | _ => None
      end) gs)) as [body ->]; [|done].
    apply mapM_is_Some. eapply Forall_impl; [exact Hgs|].
    intros g [Hlg (gi & gn & gd & its & Hg)]. unfold compose. rewrite Hg.
    pose proof (lookup_lt_Some _ _ _ Hg) as Hglt.
    destruct (IH its (indent + 3)%nat) as [sub ->]; [lia | | done].
    pose proof (Hh g _ Hg) as Hits. eapply Forall_impl; [exact Hits|].
    intros c [Hgc Hc]. split; [done | lia].
Qed.

Lemma print_scenario_reachable s indent :
  reachable s →
  is_Some (print_scenario repr_str (S (length (heap s))) (heap s) (base s) indent).
Proof.
  intros Hwf%reachable_wf. apply print_scenario_total; [apply Hwf | lia |].
  eapply Forall_impl; [apply Hwf|]. intros l Hl. split; [done | lia].
Qed.

(** The branch entered last, while still empty, is rendered last. *)
Lemma print_scenario_last_group h f i n gs l gi gn gd indent :
  heap_typed h →
  h !! f = Some (Fragment i n (gs ++ [l])) →
  h !! l = Some (Group gi gn gd []) →
  ∃ lines,
    print_scenario repr_str (S (length h)) h [f] indent =
      Some (lines ++ [group_line (str_mul "  " indent) gn gd]).
Proof.
  intros Hh Hf Hl. pose proof (lookup_lt_Some _ _ _ Hl) as Hlt.
  pose proof (Hh f _ Hf) as Hgs. apply Forall_app in Hgs as [Hgs _].
  assert (is_Some (mapM (λ group,
      match h !! group with
      | Some (Group _ gn gd its) =>
          sub ← print_scenario repr_str (length h) h its (indent + 3);
          Some (group_line (str_mul "  " indent) gn gd :: sub)
      | _ => None
      end) gs)) as [body Hbody].
  { apply mapM_is_Some. eapply Forall_impl; [exact Hgs|].
    intros g [Hlg (gi' & gn' & gd' & its & Hg)]. unfold compose. rewrite Hg.
    destruct (print_scenario_total h Hh (length h) its (indent + 3)%nat)
      as [sub ->]; [lia | | done].
    pose proof (Hh g _ Hg) as Hits. eapply Forall_impl; [exact Hits|].
    intros c [Hgc Hc]. split; [done | lia]. }
  exists ((str_mul "  " indent +:+ "- " +:+ n +:+ " (Fragment):") :: concat body).
  cbn [print_scenario mapM]. rewrite Hf.
  erewrite mapM_snoc_Some; [| exact Hbody |]; last first.
  { rewrite Hl. destruct (length h) as [|m] eqn:Hm; [lia|]. cbn. reflexivity. }
  cbn. by rewrite concat_app, app_nil_r.
Qed.
End RenderingFacts.

(** C7.  In every reachable state, [enter_group(guard)] raises
    NoActiveFragment exactly when no fragment is active.  Otherwise it
    creates the group "Group c" with the next group id [c], the given
    guard and no items, appends it to the groups of the current fragment,
    makes it the current group and returns it.  The new group reports
    and renders its guard as given: with no guard, [repr] of the group
    and the branch header that [print_scenario] prints for it carry no
    guard label; with a guard they carry exactly that label. *)
Theorem enter_group_rule (repr_str : string → string) (s : ScenarioBuilder)
    (guard : option string) (indent : nat) :
  reachable s →
  match current_fragment s with
  | None => ∃ e, enter_group guard s = Raised e s ∧ NoActiveFragment e
  | Some f =>
      let l := length (heap s) in
      let c := group_counter s in
      let name := "Group " +:+ pretty c in
      ∃ s' i n gs,
        enter_group guard s = Returned l s' ∧
        heap s !! f = Some (Fragment i n gs) ∧
        heap s' = <[f := Fragment i n (gs ++ [l])]> (heap s ++ [Group c name guard []]) ∧
        heap s' !! l = Some (Group c name guard []) ∧
        heap s' !! f = Some (Fragment i n (gs ++ [l])) ∧
        current_fragment s' = Some f ∧
        current_group s' = Some l ∧
        group_counter s' = (c + 1)%Z ∧
        repr repr_str 1 (heap s') l =
          Some (name +:+ "(items=[]" +:+
                match guard with
                | Some label => ", guard=" +:+ label +:+ ")"
                | None => ")"
                end) ∧
        ∃ lines,
          print_scenario repr_str (S (length (heap s'))) (heap s') [f] indent =
            Some (lines ++
                  [str_mul "  " indent +:+ "  * " +:+ name +:+
                   match guard with
                   | Some label => " [Guard: " +:+ label +:+ "] (Group):"
                   | None => " (Group):"
                   end])
  end.
Proof.
  intros Hwf%reachable_wf. pose proof (wf_ctx _ Hwf) as Hctx.
  pose proof (wf_enter_group guard s Hwf) as Hwf'.
  rewrite enter_group_spec in * by done. cbn zeta in *.
  destruct (current_fragment s) as [f|] eqn:Ef.
  2: { eexists. by split. }
  destruct (ctx_ok_fragment _ _ _ Hctx) as (i & n & gs & Hf).
  pose proof (lookup_lt_Some _ _ _ Hf) as Hlt.
  cbn [outcome_state] in Hwf'.
  set (group := Group (group_counter s) ("Group " +:+ pretty (group_counter s)) guard []) in *.
  set (h' := alter (append_child (length (heap s))) f (heap s ++ [group])) in *.
  assert (h' !! length (heap s) = Some group) as Hnew by by apply lookup_attach_new.
  assert (h' !! f = Some (Fragment i n (gs ++ [length (heap s)]))) as Hf'
    by by apply (lookup_attach_parent _ _ _ _ Hf).
  eexists _, i, n, gs. split; [done|]. fields. unfold loc in *.
  split_and!; try done.
  - by apply (alter_insert (append_child _) _ _ (Fragment i n gs)), lookup_snoc_lt.
  - cbn [repr]. unfold loc. rewrite Hnew. unfold group. by destruct guard.
  - destruct (print_scenario_last_group repr_str h' f i n gs (length (heap s))
                _ _ guard indent (wf_heap _ Hwf') Hf' Hnew) as [lines Hlines].
    exists lines. etrans; [exact Hlines|]. unfold group_line.
    destruct guard as [label|]; [|done].
    cbn [guard_label]. by rewrite !string_app_assoc.
Qed.

Lemma enter_group_rule_witness :
  reachable in_fragment_state ∧
  match current_fragment in_fragment_state with
  | None => ∃ e, enter_group (Some "x > 5") in_fragment_state
                   = Raised e in_fragment_state ∧ NoActiveFragment e
  | Some f =>
      let l := length (heap in_fragment_state) in
      let c := group_counter in_fragment_state in
      let name := "Group " +:+ pretty c in
      ∃ s' i n gs,
        enter_group (Some "x > 5") in_fragment_state = Returned l s' ∧
        heap in_fragment_state !! f = Some (Fragment i n gs) ∧
        heap s' = <[f := Fragment i n (gs ++ [l])]>
                    (heap in_fragment_state ++ [Group c name (Some "x > 5") []]) ∧
        heap s' !! l = Some (Group c name (Some "x > 5") []) ∧
        heap s' !! f = Some (Fragment i n (gs ++ [l])) ∧
        current_fragment s' = Some f ∧
        current_group s' = Some l ∧
        group_counter s' = (c + 1)%Z ∧
        repr (λ x, x) 1 (heap s') l =
          Some (name +:+ "(items=[]" +:+ ", guard=" +:+ "x > 5" +:+ ")") ∧
        ∃ lines,
          print_scenario (λ x, x) (S (length (heap s'))) (heap s') [f] 0 =
            Some (lines ++
                  [str_mul "  " 0 +:+ "  * " +:+ name +:+
                   " [Guard: " +:+ "x > 5" +:+ "] (Group):"])
  end.
Proof.
  assert (reachable in_fragment_state) as Hs
    by (exists [AddMessage ["data1"; "data2"]; EnterFragment]; exact eq_refl).
  split; [exact Hs|].
  exact (enter_group_rule (λ x, x) in_fragment_state (Some "x > 5") 0 Hs).
Defined.

(** * Further properties *)

(** X1.  The model is append-only.  Whatever calls are made from a state
    reached by earlier calls, the root sequence only grows at its end,
    and every object keeps its class, id, name, guard and payload, its
    list of children growing at its end only: nothing is removed,
    reordered or overwritten. *)
Theorem model_append_only (ops1 ops2 : list op) :
  let s := run ops1 init in
  let s' := run ops2 s in
  base s `prefix_of` base s' ∧
  ∀ l o, heap s !! l = Some o → ∃ o', heap s' !! l = Some o' ∧ obj_ext o o'.
Proof.
  intros s s'. assert (wf s) as Hwf by apply run_wf, wf_init.
  split; [by apply run_base | by apply run_heap_ext].
Qed.

(** X2.  After any sequence of calls the model is a well-formed forest:
    every element of the root sequence is a Message, a State or a
    Fragment of the store; every element of a fragment's groups is a
    Group and every element of a group's items a Message, State or
    Fragment, each created after the container that holds it (so there
    is no cycle and no dangling reference). *)
Theorem model_well_typed (ops : list op) :
  let s := run ops init in
  Forall (is_item (heap s)) (base s) ∧
  ∀ l o, heap s !! l = Some o →
    match o with
    | Fragment _ _ gs => Forall (λ c, (l < c)%nat ∧ is_group (heap s) c) gs
    | Group _ _ _ its => Forall (λ c, (l < c)%nat ∧ is_item (heap s) c) its
    | _ => True
    end.
Proof.
  intros s. assert (wf s) as Hwf by apply run_wf, wf_init.
  split; [apply Hwf | apply (wf_heap _ Hwf)].
Qed.

Lemma step_counters c s :
  wf s →
  let s' := outcome_state (exec c s) in
  event_counter s' =
    (event_counter s + if decide (op_kind c = Some KEvent) then 1 else 0)%Z ∧
  fragment_counter s' =
    (fragment_counter s + if decide (op_kind c = Some KFragment) then 1 else 0)%Z ∧
  (group_counter s' ≤
     group_counter s + if decide (op_kind c = Some KGroup) then 1 else 0)%Z.
Proof.
  intros Hwf. pose proof (wf_ctx _ Hwf) as Hctx. pose proof (wf_stack _ Hwf) as Hk.
  cbn zeta. rewrite exec_state.
  assert (∀ ev,
    event_counter (outcome_state (add_event ev s)) = (event_counter s + 1)%Z ∧
    fragment_counter (outcome_state (add_event ev s)) = (fragment_counter s + 0)%Z ∧
    (group_counter (outcome_state (add_event ev s)) ≤ group_counter s + 0)%Z) as Hev.
  { intros ev. rewrite add_event_spec by done. cbn zeta.
    destruct (current_fragment s) as [f|]; [destruct (current_group s) as [g|]|];
      cbn [outcome_state]; fields; split_and!; lia. }
  destruct c as [its|info| |guard|]; cbn [op_kind].
  - rewrite add_message_spec. apply Hev.
  - rewrite add_state_spec. apply Hev.
  - rewrite enter_fragment_spec by done. cbn zeta.
    destruct (current_fragment s) as [f|]; [destruct (current_group s) as [g|]|];
      cbn [outcome_state]; fields; split_and!; repeat case_decide; (done || lia).
  - rewrite enter_group_spec by done. cbn zeta.
    destruct (current_fragment s) as [f|];
      cbn [outcome_state]; fields; split_and!; repeat case_decide; (done || lia).
  - rewrite exit_fragment_spec by done.
    destruct (list_pop (state_stack s)) as [[k' [pf pg]]|];
      cbn [outcome_state]; fields; split_and!; repeat case_decide; (done || lia).
Qed.

(** X3.  The event and fragment counters count calls, not successes:
    after any sequence of calls on a fresh builder the event counter is
    one more than the number of [add_message] and [add_state] calls made,
    and the fragment counter one more than the number of
    [enter_fragment] calls, whether they returned or raised.  The group
    counter is at most one more than the number of [enter_group] calls. *)
Theorem counters_count_calls (ops : list op) :
  let s := run ops init in
  event_counter s = (1 + Z.of_nat (length (calls_of KEvent ops)))%Z ∧
  fragment_counter s = (1 + Z.of_nat (length (calls_of KFragment ops)))%Z ∧
  (group_counter s ≤ 1 + Z.of_nat (length (calls_of KGroup ops)))%Z.
Proof.
  cbn zeta. induction ops as [|c ops IH] using rev_ind; [done|].
  assert (wf (run ops init)) as Hwf by apply run_wf, wf_init.
  destruct (step_counters c _ Hwf) as (He & Hf & Hg). cbn zeta in He, Hf, Hg.
  destruct IH as (IHe & IHf & IHg).
  rewrite run_snoc. unfold calls_of in *. rewrite !filter_app, !length_app.
  rewrite !filter_cons, !filter_nil.
  rewrite He, Hf. split_and!.
  - destruct (decide (op_kind c = Some KEvent)); simpl; lia.
  - destruct (decide (op_kind c = Some KFragment)); simpl; lia.
  - destruct (decide (op_kind c = Some KGroup)); simpl in *; lia.
Qed.

(** *** Groups are attached when they are constructed *)

Lemma exec_new_object c s o :
  wf s →
  heap (outcome_state (exec c s)) !! length (heap s) = Some o →
  op_kind c = Some (kind_of o).
Proof.
  intros Hwf Hl. destruct (exec_effect c s Hwf) as [eff Heff].
  destruct eff as [|o'|o'|o' p]; simpl in Heff.
  - destruct Heff as (Hh & _). rewrite Hh in Hl.
    apply lookup_lt_Some in Hl. lia.
  - destruct Heff as ((_ & Hk & _) & Hh & _).
    rewrite Hh, list_lookup_middle in Hl by done. by injection Hl as <-.
  - destruct Heff as ((_ & Hk & _) & Hh & _).
    rewrite Hh, list_lookup_middle in Hl by done. by injection Hl as <-.
  - destruct Heff as ((_ & Hk & _) & Hp & Hh & _).
    rewrite Hh, lookup_attach_new in Hl by done. by injection Hl as <-.
Qed.

Lemma exec_length c s :
  wf s → (length (heap (outcome_state (exec c s))) ≤ S (length (heap s)))%nat.
Proof.
  intros Hwf. destruct (exec_effect c s Hwf) as [eff Heff].
  destruct eff as [|o'|o'|o' p]; simpl in Heff.
  - destruct Heff as (-> & _). lia.
  - destruct Heff as (_ & -> & _). rewrite length_app. simpl. lia.
  - destruct Heff as (_ & -> & _). rewrite length_app. simpl. lia.
  - destruct Heff as (_ & _ & -> & _). rewrite length_alter, length_app. simpl. lia.
Qed.

Lemma exec_groups_attached c s :
  wf s →
  (∀ l, is_group (heap s) l → ∃ f, group_of (heap s) f l) →
  ∀ l, is_group (heap (outcome_state (exec c s))) l →
       ∃ f, group_of (heap (outcome_state (exec c s))) f l.
Proof.
  intros Hwf Hinv l Hl.
  pose proof (exec_heap_ext c s Hwf) as Hext.
  destruct (decide (l < length (heap s))%nat) as [Hlt|Hge].
  - destruct (lookup_lt_is_Some_2 _ _ Hlt) as [o Ho].
    destruct (Hext _ _ Ho) as (o' & Ho' & Hoo).
    destruct Hl as (i & n & gd & its & Hl).
    pose proof (eq_trans (eq_sym Ho') Hl) as Heq. injection Heq as ->.
    destruct o; simpl in Hoo; try done.
    destruct (Hinv l) as [f Hf]; [by repeat eexists|].
    exists f. by eapply group_of_ext.
  - destruct Hl as (i & n & gd & its & Hl).
    pose proof (lookup_lt_Some _ _ _ Hl) as Hlt. pose proof (exec_length c s Hwf).
    assert (l = length (heap s)) as -> by lia.
    pose proof (exec_new_object c s _ Hwf Hl) as Hc.
    destruct c; try done. clear Hc.
    pose proof (wf_ctx _ Hwf) as Hctx.
    rewrite exec_state, enter_group_spec in * by done. cbn zeta in *.
    destruct (current_fragment s) as [f|] eqn:Ef; cbn [outcome_state] in *; fields.
    + destruct (ctx_ok_fragment _ _ _ Hctx) as (fi & fn & gs & Hf).
      exists f, fi, fn, (gs ++ [length (heap s)]). split.
      * by rewrite (lookup_attach_parent _ _ _ _ Hf).
      * apply elem_of_app. right. by apply list_elem_of_singleton.
    + apply lookup_lt_Some in Hl. lia.
Qed.

Lemma attached_ids_all k s :
  (∀ l o, heap s !! l = Some o → kind_of o = k → attached s l) →
  attached_ids k s = ids_of k (heap s).
Proof.
  intros Hall. unfold attached_ids, ids_of.
  assert (∀ l o, heap s !! l = Some o → kind_of o = k → attachedb s l = true) as Hb.
  { intros l o Hl Hk. apply attachedb_spec. eauto. }
  clear Hall. revert Hb. generalize (attachedb s). generalize (heap s). clear s.
  intros h b. induction h as [|o h IH] using rev_ind; intros Hb; [done|].
  rewrite imap_app, omap_app, filter_app, fmap_app, IH.
  - f_equal. simpl. rewrite Nat.add_0_r, filter_cons, filter_nil.
    destruct (decide (kind_of o = k)) as [Hk|]; [|done].
    rewrite (Hb (length h) o); [done | by rewrite list_lookup_middle | done].
  - intros l o' Hl. apply (Hb l o'). by apply lookup_snoc_lt.
Qed.

(** X4.  [enter_group] checks for an active fragment before it
    constructs the group, so no group id is ever lost: after any sequence
    of calls every Group of the store is one of the groups of some
    Fragment, and the ids of the attached groups are exactly
    1, 2, ..., group_counter - 1, without a gap. *)
Theorem groups_always_attached (ops : list op) :
  let s := run ops init in
  (∀ l, is_group (heap s) l → ∃ f, group_of (heap s) f l) ∧
  attached_ids KGroup s = ids_of KGroup (heap s) ∧
  attached_ids KGroup s = seqZ 1 (group_counter s - 1).
Proof.
  intros s.
  assert (∀ l, is_group (heap s) l → ∃ f, group_of (heap s) f l) as Hinv.
  { unfold s. clear s. induction ops as [|c ops IH] using rev_ind.
    - intros l (? & ? & ? & ? & Hl). apply lookup_lt_Some in Hl. simpl in Hl. lia.
    - rewrite run_snoc. apply exec_groups_attached; [apply run_wf, wf_init | done]. }
  assert (attached_ids KGroup s = ids_of KGroup (heap s)) as Hids.
  { apply attached_ids_all. intros l o Hl Hk.
    destruct o; simpl in Hk; try done.
    destruct (Hinv l) as (f & fi & fn & gs & Hf & Hin); [by repeat eexists|].
    right. exists f, (Fragment fi fn gs). by split. }
  split_and!; try done.
  rewrite Hids. assert (wf s) as Hwf by apply run_wf, wf_init.
  apply (wf_ids _ Hwf KGroup).
Qed.

(** *** No node is held twice *)

Lemma elem_of_concat {A} (x : A) (ls : list (list A)) :
  x ∈ concat ls ↔ ∃ l, l ∈ ls ∧ x ∈ l.
Proof.
  induction ls as [|l ls IH]; simpl.
  - split; [by intros ?%elem_of_nil | by intros (? & ?%elem_of_nil & _)].
  - rewrite elem_of_app, IH. split.
    + intros [?|(l' & ? & ?)]; [exists l | exists l']; split; try done;
        [by left | by right].
    + intros (l' & [->|?]%elem_of_cons & ?); [by left | right; eauto].
Qed.

Lemma elem_of_refs s l : l ∈ refs s ↔ attached s l.
Proof.
  unfold refs, attached. rewrite elem_of_app, elem_of_concat.
  split; (intros [?|H]; [by left | right]).
  - destruct H as (cs & (o & -> & Ho)%list_elem_of_fmap & Hl).
    apply list_elem_of_lookup in Ho as [p Hp]. eauto.
  - destruct H as (p & o & Hp & Hl). exists (children o). split; [|done].
    apply list_elem_of_fmap. exists o. split; [done|].
    apply list_elem_of_lookup. eauto.
Qed.

Lemma concat_children_alter l p h :
  ∃ extra, (extra = [] ∨ extra = [l]) ∧
    concat (children <$> alter (append_child l) p h) ≡ₚ extra ++ concat (children <$> h).
Proof.
  revert p. induction h as [|o h IH]; intros p.
  - exists []. split; [by left | done].
  - destruct p as [|p]; simpl.
    + destruct o as [i x|i x|i n gd its|i n gs]; simpl.
      * exists []. split; [by left | done].
      * exists []. split; [by left | done].
      * exists [l]. split; [by right|].
        rewrite <- app_assoc. simpl. symmetry. apply Permutation_middle.
      * exists [l]. split; [by right|].
        rewrite <- app_assoc. simpl. symmetry. apply Permutation_middle.
    + destruct (IH p) as (extra & Hextra & Hperm). exists extra. split; [done|].
      rewrite Hperm. rewrite !app_assoc. apply Permutation_app_tail, Permutation_app_comm.
Qed.

Lemma effect_refs_NoDup c eff s s' :
  wf s → has_effect c eff s s' → NoDup (refs s) → NoDup (refs s').
Proof.
  intros Hwf Heff Hnd.
  assert (length (heap s) ∉ refs s) as Hfresh.
  { intros Hin%elem_of_refs%attached_lt; [lia | done]. }
  assert (∀ o, children o = [] →
            concat (children <$> heap s ++ [o]) = concat (children <$> heap s)) as Hsnoc.
  { intros o Ho. rewrite fmap_app, concat_app. simpl. rewrite Ho. by rewrite !app_nil_r. }
  unfold refs in *. destruct eff as [|o|o|o p]; simpl in Heff.
  - destruct Heff as (-> & -> & _). done.
  - destruct Heff as ((Ho & _) & -> & ->). by rewrite Hsnoc.
  - destruct Heff as ((Ho & _) & -> & ->). rewrite Hsnoc by done.
    rewrite <- app_assoc. simpl.
    eapply (NoDup_Permutation_proper); [symmetry; apply Permutation_middle|].
    by apply NoDup_cons.
  - destruct Heff as ((Ho & _) & _ & -> & ->).
    destruct (concat_children_alter (length (heap s)) p (heap s ++ [o]))
      as (extra & Hextra & Hperm).
    rewrite Hperm, Hsnoc by done.
    destruct Hextra as [->| ->]; simpl.
    + done.
    + eapply (NoDup_Permutation_proper); [symmetry; apply Permutation_middle|].
      by apply NoDup_cons.
Qed.

(** X5.  Ownership is exclusive: after any sequence of calls no node is
    referenced twice, neither by two containers nor twice by one.  The
    root sequence and the child lists of all objects, put together, have
    no duplicate. *)
Theorem exclusive_ownership (ops : list op) :
  let s := run ops init in
  NoDup (refs s) ∧
  ∀ l, attached s l ↔ l ∈ refs s.
Proof.
  intros s. split; [|by intros l; rewrite elem_of_refs].
  unfold s. clear s. induction ops as [|c ops IH] using rev_ind.
  - apply NoDup_nil_2.
  - rewrite run_snoc. assert (wf (run ops init)) as Hwf by apply run_wf, wf_init.
    destruct (exec_effect c _ Hwf) as [eff Heff].
    by eapply effect_refs_NoDup.
Qed.

(** *** Calls in sequence *)

Lemma lookup_attach_other h o p j x :
  j ≠ p → h !! j = Some x →
  alter (append_child (length h)) p (h ++ [o]) !! j = Some x.
Proof.
  intros Hne Hj. rewrite list_lookup_alter_ne by done. by apply lookup_snoc_lt.
Qed.

Lemma length_attach h o p :
  length (alter (append_child (length h)) p (h ++ [o])) = S (length h).
Proof. rewrite length_alter, length_app. simpl. lia. Qed.

(** X6.  Inside a fragment, entering a second group switches the
    insertion point: after [enter_group(a); enter_group(b);
    add_message(items)] in a reachable state with current fragment [f],
    all three calls return, [f] has got the two new groups at the end of
    its groups in that order, the first is left empty and the message is
    the only item of the second, which is the current group. *)
Theorem second_group_takes_over (s : ScenarioBuilder) (f : loc)
    (a b : option string) (exchanged_items : list string) :
  reachable s →
  current_fragment s = Some f →
  ∃ g1 s1 g2 s2 m s3 i n gs,
    enter_group a s = Returned g1 s1 ∧
    enter_group b s1 = Returned g2 s2 ∧
    add_message exchanged_items s2 = Returned m s3 ∧
    heap s !! f = Some (Fragment i n gs) ∧
    heap s3 !! f = Some (Fragment i n (gs ++ [g1; g2])) ∧
    heap s3 !! g1 =
      Some (Group (group_counter s) ("Group " +:+ pretty (group_counter s)) a []) ∧
    heap s3 !! g2 =
      Some (Group (group_counter s + 1)
              ("Group " +:+ pretty (group_counter s + 1)%Z) b [m]) ∧
    heap s3 !! m = Some (Message (event_counter s) exchanged_items) ∧
    current_fragment s3 = Some f ∧
    current_group s3 = Some g2.
Proof.
  intros Hwf%reachable_wf Hcf. pose proof (wf_ctx _ Hwf) as Hctx.
  rewrite Hcf in Hctx. destruct (ctx_ok_fragment _ _ _ Hctx) as (i & n & gs & Hf).
  pose proof (lookup_lt_Some _ _ _ Hf) as Hlt.
  (* first group *)
  pose proof (enter_group_spec a s (wf_ctx _ Hwf)) as E1.
  pose proof (wf_enter_group a s Hwf) as Hwf1.
  rewrite E1 in Hwf1. cbn zeta in E1, Hwf1. rewrite Hcf in E1, Hwf1.
  cbn [outcome_state] in Hwf1.
  (* second group *)
  pose proof (enter_group_spec b _ (wf_ctx _ Hwf1)) as E2.
  pose proof (wf_enter_group b _ Hwf1) as Hwf2.
  rewrite E2 in Hwf2. cbn zeta in E2, Hwf2. fields. cbn [outcome_state] in Hwf2.
  (* the message *)
  pose proof (add_event_spec (Message (event_counter s) exchanged_items) _ (wf_ctx _ Hwf2))
    as E3.
  cbn zeta in E3. fields.
  eexists _, _, _, _, _, _, i, n, gs.
  split; [exact E1|]. split; [exact E2|]. split; [exact E3|]. fields.
  set (G1 := Group (group_counter s) _ a []).
  set (G2 := Group (group_counter s + 1) _ b []).
  set (h1 := alter _ f (heap s ++ [G1])).
  assert (h1 !! f = Some (Fragment i n (gs ++ [length (heap s)]))) as Hf1
    by by apply (lookup_attach_parent _ _ _ _ Hf).
  assert (h1 !! length (heap s) = Some G1) as Hg1 by by apply lookup_attach_new.
  assert (length h1 = S (length (heap s))) as Hlen1 by apply length_attach.
  set (h2 := alter _ f (h1 ++ [G2])).
  assert (h2 !! f = Some (Fragment i n ((gs ++ [length (heap s)]) ++ [length h1]))) as Hf2
    by by apply (lookup_attach_parent _ _ _ _ Hf1).
  assert (h2 !! length (heap s) = Some G1) as Hg12.
  { apply lookup_attach_other; [lia | done]. }
  assert (h2 !! length h1 = Some G2) as Hg2.
  { apply lookup_attach_new. lia. }
  assert (length h2 = S (length h1)) as Hlen2 by apply length_attach.
  split_and!; try done.
  - rewrite <- app_assoc in Hf2. apply lookup_attach_other; [lia | done].
  - apply lookup_attach_other; [lia | done].
  - by rewrite (lookup_attach_parent _ _ _ _ Hg2).
  - apply lookup_attach_new. lia.
Qed.

Lemma second_group_takes_over_witness :
  reachable in_fragment_state ∧
  current_fragment in_fragment_state = Some 1%nat ∧
  ∃ g1 s1 g2 s2 m s3 i n gs,
    enter_group (Some "x > 5") in_fragment_state = Returned g1 s1 ∧
    enter_group None s1 = Returned g2 s2 ∧
    add_message ["data5"] s2 = Returned m s3 ∧
    heap in_fragment_state !! 1%nat = Some (Fragment i n gs) ∧
    heap s3 !! 1%nat = Some (Fragment i n (gs ++ [g1; g2])) ∧
    heap s3 !! g1 =
      Some (Group (group_counter in_fragment_state)
              ("Group " +:+ pretty (group_counter in_fragment_state)) (Some "x > 5") []) ∧
    heap s3 !! g2 =
      Some (Group (group_counter in_fragment_state + 1)
              ("Group " +:+ pretty (group_counter in_fragment_state + 1)%Z) None [m]) ∧
    heap s3 !! m = Some (Message (event_counter in_fragment_state) ["data5"]) ∧
    current_fragment s3 = Some 1%nat ∧
    current_group s3 = Some g2.
Proof.
  assert (reachable in_fragment_state) as Hs
    by (exists [AddMessage ["data1"; "data2"]; EnterFragment]; exact eq_refl).
  split; [exact Hs|]. split; [exact eq_refl|].
  exact (second_group_takes_over in_fragment_state 1%nat (Some "x > 5") None ["data5"]
           Hs eq_refl).
Defined.

(** X7.  Leaving a fragment resumes the enclosing container: after
    [enter_fragment(); enter_group(guard); exit_fragment();
    add_message(items)] from a reachable state in which
    [enter_fragment()] returns, all calls return and the container that
    was open before (the root sequence at top level, the current group
    otherwise) has got the fragment and then the message as its last two
    children; the message is not inside the fragment, whose only group is
    left empty. *)
Theorem events_resume_after_fragment (s s1 : ScenarioBuilder) (f : loc)
    (guard : option string) (exchanged_items : list string) :
  reachable s →
  enter_fragment s = Returned f s1 →
  ∃ g s2 s3 m s4,
    enter_group guard s1 = Returned g s2 ∧
    exit_fragment s2 = Returned tt s3 ∧
    add_message exchanged_items s3 = Returned m s4 ∧
    match current_group s with
    | None => base s4 = base s ++ [f; m]
    | Some p => ∃ i n gd its0,
        heap s !! p = Some (Group i n gd its0) ∧
        heap s4 !! p = Some (Group i n gd (its0 ++ [f; m]))
    end ∧
    heap s4 !! f =
      Some (Fragment (fragment_counter s)
              ("Fragment " +:+ pretty (fragment_counter s)) [g]) ∧
    heap s4 !! g =
      Some (Group (group_counter s) ("Group " +:+ pretty (group_counter s)) guard []) ∧
    heap s4 !! m = Some (Message (event_counter s) exchanged_items).
Proof.
  intros Hwf%reachable_wf Hr. pose proof (wf_ctx _ Hwf) as Hctx.
  pose proof (wf_enter_fragment s Hwf) as Hwf1. rewrite Hr in Hwf1.
  cbn [outcome_state] in Hwf1.
  rewrite enter_fragment_spec in Hr by done. cbn zeta in Hr.
  set (F := Fragment (fragment_counter s) _ []) in *.
  destruct (current_fragment s) as [f0|] eqn:Ef;
    [destruct (current_group s) as [p|] eqn:Eg|]; [| done |].
  - (* inside group [p] *)
    injection Hr as <- <-.
    destruct Hctx as [_ (i & n & gd & its0 & Hp)].
    pose proof (lookup_lt_Some _ _ _ Hp) as Hlt.
    pose proof (enter_group_spec guard _ (wf_ctx _ Hwf1)) as E2.
    pose proof (wf_enter_group guard _ Hwf1) as Hwf2.
    rewrite E2 in Hwf2. cbn zeta in E2, Hwf2. fields. cbn [outcome_state] in Hwf2.
    pose proof (exit_fragment_spec _ (wf_ctx _ Hwf2) (wf_stack _ Hwf2)) as E3.
    pose proof (wf_exit_fragment _ Hwf2) as Hwf3.
    rewrite E3 in Hwf3. fields. rewrite list_pop_snoc in E3, Hwf3.
    cbn [outcome_state] in Hwf3.
    pose proof (add_event_spec (Message (event_counter s) exchanged_items) _
                  (wf_ctx _ Hwf3)) as E4.
    cbn zeta in E4. fields.
    eexists _, _, _, _, _.
    split; [exact E2|]. split; [exact E3|]. split; [exact E4|]. fields.
    set (G := Group (group_counter s) _ guard []).
    set (h1 := alter _ p (heap s ++ [F])).
    assert (h1 !! p = Some (Group i n gd (its0 ++ [length (heap s)]))) as Hp1
      by by apply (lookup_attach_parent _ _ _ _ Hp).
    assert (h1 !! length (heap s) = Some F) as Hf1 by by apply lookup_attach_new.
    assert (length h1 = S (length (heap s))) as Hlen1 by apply length_attach.
    set (h2 := alter (append_child (length h1)) (length (heap s)) (h1 ++ [G])).
    assert (h2 !! p = Some (Group i n gd (its0 ++ [length (heap s)]))) as Hp2.
    { apply lookup_attach_other; [lia | done]. }
    assert (h2 !! length (heap s) = Some (Fragment (fragment_counter s)
              ("Fragment " +:+ pretty (fragment_counter s)) [length h1])) as Hf2
      by exact (lookup_attach_parent h1 G _ _ Hf1).
    assert (h2 !! length h1 = Some G) as Hg2 by (apply lookup_attach_new; lia).
    assert (length h2 = S (length h1)) as Hlen2 by apply length_attach.
    split_and!.
    + exists i, n, gd, its0. split; [done|].
      rewrite (lookup_attach_parent _ _ _ _ Hp2). simpl. by rewrite <- app_assoc.
    + apply lookup_attach_other; [lia | done].
    + apply lookup_attach_other; [lia | done].
    + apply lookup_attach_new. rewrite length_attach. lia.
  - (* top level *)
    destruct (current_group s) as [p|] eqn:Eg; [done|].
    injection Hr as <- <-.
    pose proof (enter_group_spec guard _ (wf_ctx _ Hwf1)) as E2.
    pose proof (wf_enter_group guard _ Hwf1) as Hwf2.
    rewrite E2 in Hwf2. cbn zeta in E2, Hwf2. fields. cbn [outcome_state] in Hwf2.
    pose proof (exit_fragment_spec _ (wf_ctx _ Hwf2) (wf_stack _ Hwf2)) as E3.
    pose proof (wf_exit_fragment _ Hwf2) as Hwf3.
    rewrite E3 in Hwf3. fields. rewrite list_pop_snoc in E3, Hwf3.
    cbn [outcome_state] in Hwf3.
    pose proof (add_event_spec (Message (event_counter s) exchanged_items) _
                  (wf_ctx _ Hwf3)) as E4.
    cbn zeta in E4. fields.
    eexists _, _, _, _, _.
    split; [exact E2|]. split; [exact E3|]. split; [exact E4|]. fields.
    set (G := Group (group_counter s) _ guard []).
    set (h1 := heap s ++ [F]).
    assert (h1 !! length (heap s) = Some F) as Hf1
      by (unfold h1; by rewrite list_lookup_middle).
    assert (length h1 = S (length (heap s))) as Hlen1
      by (unfold h1; rewrite length_app; simpl; lia).
    set (h2 := alter (append_child (length h1)) (length (heap s)) (h1 ++ [G])).
    assert (h2 !! length (heap s) = Some (Fragment (fragment_counter s)
              ("Fragment " +:+ pretty (fragment_counter s)) [length h1])) as Hf2
      by exact (lookup_attach_parent h1 G _ _ Hf1).
    assert (h2 !! length h1 = Some G) as Hg2 by (apply lookup_attach_new; lia).
    assert (length h2 = S (length h1)) as Hlen2 by apply length_attach.
    split_and!.
    + by rewrite <- app_assoc.
    + by apply lookup_snoc_lt.
    + by apply lookup_snoc_lt.
    + by rewrite list_lookup_middle.
Qed.

Lemma events_resume_after_fragment_witness :
  reachable in_group_state ∧
  ∃ f s1, enter_fragment in_group_state = Returned f s1 ∧
  ∃ g s2 s3 m s4,
    enter_group None s1 = Returned g s2 ∧
    exit_fragment s2 = Returned tt s3 ∧
    add_message ["data8"] s3 = Returned m s4 ∧
    match current_group in_group_state with
    | None => base s4 = base in_group_state ++ [f; m]
    | Some p => ∃ i n gd its0,
        heap in_group_state !! p = Some (Group i n gd its0) ∧
        heap s4 !! p = Some (Group i n gd (its0 ++ [f; m]))
    end ∧
    heap s4 !! f =
      Some (Fragment (fragment_counter in_group_state)
              ("Fragment " +:+ pretty (fragment_counter in_group_state)) [g]) ∧
    heap s4 !! g =
      Some (Group (group_counter in_group_state)
              ("Group " +:+ pretty (group_counter in_group_state)) None []) ∧
    heap s4 !! m = Some (Message (event_counter in_group_state) ["data8"]).
Proof.
  assert (reachable in_group_state) as Hs
    by (exists [EnterFragment; EnterGroup (Some "x > 5")]; exact eq_refl).
  split; [exact Hs|].
  eexists _, _. split; [vm_compute; reflexivity|].
  eapply (events_resume_after_fragment in_group_state); [exact Hs|].
  vm_compute. reflexivity.
Defined.

(** *** More on rendering *)

Lemma mapM_mono {A B} (f g : A → option B) (l : list A) (k : list B) :
  (∀ x y, f x = Some y → g x = Some y) → mapM f l = Some k → mapM g l = Some k.
Proof.
  intros Hfg Hl. apply mapM_Some. apply mapM_Some in Hl.
  eapply Forall2_impl; [exact Hl|]. apply Hfg.
Qed.

Lemma mapM_app_Some {A B} (f : A → option B) (l1 l2 : list A) (k1 k2 : list B) :
  mapM f l1 = Some k1 → mapM f l2 = Some k2 → mapM f (l1 ++ l2) = Some (k1 ++ k2).
Proof.
  intros H1 H2. apply mapM_Some, Forall2_app; by apply mapM_Some.
Qed.


Section RenderingMore.
Variable repr_str : string → string.

(** More fuel does not change what is rendered. *)
Lemma repr_mono fuel h l r :
  repr repr_str fuel h l = Some r → repr repr_str (S fuel) h l = Some r.
Proof.
  revert l r. induction fuel as [|fuel IH]; intros l r; [done|].
  intros H. cbn [repr] in *.
  destruct (h !! l) as [[i x|i x|i n gd its|i n gs]|]; try done.
  - apply bind_Some in H as (rs & Hrs & Hr). apply bind_Some. exists rs.
    split; [|done]. eapply mapM_mono; [|exact Hrs]. apply IH.
  - apply bind_Some in H as (rs & Hrs & Hr). apply bind_Some. exists rs.
    split; [|done]. eapply mapM_mono; [|exact Hrs]. apply IH.
Qed.

Lemma print_scenario_mono fuel h items indent lines :
  print_scenario repr_str fuel h items indent = Some lines →
  print_scenario repr_str (S fuel) h items indent = Some lines.
Proof.
  revert items indent lines.
  induction fuel as [|fuel IH]; intros items indent lines; [done|].
  intros H. cbn [print_scenario] in *.
  apply fmap_Some in H as (ls & Hls & ->). apply fmap_Some. exists ls.
  split; [|done]. eapply mapM_mono; [|exact Hls].
  intros item y. cbn beta.
  destruct (h !! item) as [[i x|i x|i n gd its|i n gs]|]; try done.
  - intros (r & Hr & Hy)%bind_Some. apply bind_Some. exists r.
    split; [by apply repr_mono | done].
  - intros (r & Hr & Hy)%bind_Some. apply bind_Some. exists r.
    split; [by apply repr_mono | done].
  - intros (r & Hr & Hy)%bind_Some. apply bind_Some. exists r.
    split; [by apply repr_mono | done].
  - intros (body & Hbody & Hy)%bind_Some. apply bind_Some. exists body.
    split; [|done]. eapply mapM_mono; [|exact Hbody].
    intros g z. cbn beta.
    destruct (h !! g) as [[| |gi gn ggd gits|]|]; try done.
    intros (sub & Hsub & Hz)%bind_Some. apply bind_Some. exists sub.
    split; [by apply IH | done].
Qed.

Lemma print_scenario_mono_le fuel fuel' h items indent lines :
  (fuel ≤ fuel')%nat →
  print_scenario repr_str fuel h items indent = Some lines →
  print_scenario repr_str fuel' h items indent = Some lines.
Proof.
  induction 1 as [|fuel' _ IH]; [done|].
  intros H. by apply print_scenario_mono, IH.
Qed.

(** Items are rendered one after the other. *)
Lemma print_scenario_app fuel h items1 items2 indent lines1 lines2 :
  print_scenario repr_str fuel h items1 indent = Some lines1 →
  print_scenario repr_str fuel h items2 indent = Some lines2 →
  print_scenario repr_str fuel h (items1 ++ items2) indent = Some (lines1 ++ lines2).
Proof.
  destruct fuel as [|fuel]; [done|]. cbn [print_scenario].
  intros (ls1 & H1 & ->)%fmap_Some (ls2 & H2 & ->)%fmap_Some.
  apply fmap_Some. exists (ls1 ++ ls2). split; [|by rewrite concat_app].
  by apply mapM_app_Some.
Qed.

(** Rendering does not look at objects created after the items and
    everything below them. *)
Lemma print_scenario_snoc fuel h o items indent :
  heap_typed h → Forall (is_item h) items →
  print_scenario repr_str fuel (h ++ [o]) items indent =
  print_scenario repr_str fuel h items indent.
Proof.
  intros Hh. revert items indent.
  induction fuel as [|fuel IH]; intros items indent Hitems; [done|].
  cbn [print_scenario]. f_equal. apply Forall_mapM_ext.
  eapply Forall_impl; [exact Hitems|]. intros item (ob & Hl & Hk). cbn beta.
  cbn [repr]. rewrite (lookup_snoc_lt _ _ _ _ Hl), Hl.
  pose proof (Hh item ob Hl) as Hgs.
  destruct ob as [i x|i x|i n gd its|i n gs]; try done.
  f_equal. apply Forall_mapM_ext.
  eapply Forall_impl; [exact Hgs|]. intros g [_ (gi & gn & ggd & gits & Hg)]. cbn beta.
  rewrite (lookup_snoc_lt _ _ _ _ Hg), Hg.
  rewrite IH; [done|]. pose proof (Hh g _ Hg) as Hits.
  eapply Forall_impl; [exact Hits|]. by intros c [_ ?].
Qed.

End RenderingMore.

Lemma print_scenario_after_event repr_str s ev indent lines line :
  wf s → current_fragment s = None →
  print_scenario repr_str (S (length (heap s))) (heap s) (base s) indent = Some lines →
  print_scenario repr_str (S (length (heap s ++ [ev]))) (heap s ++ [ev])
    [length (heap s)] indent = Some [line] →
  ∃ s', add_event ev s = Returned (length (heap s)) s' ∧
        print_scenario repr_str (S (length (heap s'))) (heap s') (base s') indent
          = Some (lines ++ [line]).
Proof.
  intros Hwf Hcf Hold Hnew.
  rewrite add_event_spec by apply Hwf. cbn zeta. rewrite Hcf.
  eexists. split; [done|]. fields.
  apply print_scenario_app; [|done].
  rewrite print_scenario_snoc; [| apply Hwf | apply Hwf].
  eapply print_scenario_mono_le; [|exact Hold].
  rewrite length_app. simpl. lia.
Qed.

(** X8.  Rendering never fails on a model the builder has built: after
    any sequence of calls [print_scenario(get_scenario(), indent)]
    returns; it raises no AttributeError and needs no more recursion
    depth than the store has objects.  The lines do not depend on the
    fuel of the model once it exceeds the size of the store. *)
Theorem rendering_defined (repr_str : string → string) (ops : list op) (indent : nat) :
  let s := run ops init in
  ∃ lines, ∀ fuel, (length (heap s) < fuel)%nat →
    print_scenario repr_str fuel (heap s) (base s) indent = Some lines.
Proof.
  intros s. assert (reachable s) as Hs by by exists ops.
  destruct (print_scenario_reachable repr_str s indent Hs) as [lines Hlines].
  exists lines. intros fuel Hfuel.
  eapply print_scenario_mono_le; [|exact Hlines]. lia.
Qed.



(** X10.  An event added at top level shows up as one more line at the
    end of the rendering and changes nothing above it: in a reachable
    state with no active fragment, [add_message(items)] (and likewise
    [add_state(info)]) returns, and rendering the new root sequence gives
    the lines rendered before followed by the line of the new event. *)
Theorem top_level_event_renders_last (repr_str : string → string) (s : ScenarioBuilder)
    (exchanged_items : list string) (state_info : string) (indent : nat) :
  reachable s →
  current_fragment s = None →
  ∃ lines,
    print_scenario repr_str (S (length (heap s))) (heap s) (base s) indent = Some lines ∧
    (∃ m s', add_message exchanged_items s = Returned m s' ∧
       print_scenario repr_str (S (length (heap s'))) (heap s') (base s') indent =
         Some (lines ++
               [str_mul "  " indent +:+ "- " +:+
                "Message(" +:+ pretty (event_counter s) +:+ ", " +:+
                repr_list (repr_str <$> exchanged_items) +:+ ")"])) ∧
    (∃ m s', add_state state_info s = Returned m s' ∧
       print_scenario repr_str (S (length (heap s'))) (heap s') (base s') indent =
         Some (lines ++
               [str_mul "  " indent +:+ "- " +:+
                "State(" +:+ pretty (event_counter s) +:+ ", " +:+ state_info +:+ ")"])).
Proof.
  intros Hs Hcf. pose proof (reachable_wf _ Hs) as Hwf.
  destruct (print_scenario_reachable repr_str s indent Hs) as [lines Hlines].
  exists lines. split; [done|]. split.
  - rewrite add_message_spec.
    edestruct (print_scenario_after_event repr_str s
                 (Message (event_counter s) exchanged_items) indent lines)
      as (s' & Hr & Hp); [exact Hwf | exact Hcf | exact Hlines | |].
    + cbn [print_scenario mapM repr]. rewrite list_lookup_middle by done.
      cbn. reflexivity.
    + exists (length (heap s)), s'. split; [exact Hr | exact Hp].
  - rewrite add_state_spec.
    edestruct (print_scenario_after_event repr_str s
                 (State (event_counter s) state_info) indent lines)
      as (s' & Hr & Hp); [exact Hwf | exact Hcf | exact Hlines | |].
    + cbn [print_scenario mapM repr]. rewrite list_lookup_middle by done.
      cbn. reflexivity.
    + exists (length (heap s)), s'. split; [exact Hr | exact Hp].
Qed.

Lemma top_level_event_renders_last_witness :
  reachable init ∧
  current_fragment init = None ∧
  ∃ lines,
    print_scenario plain_repr (S (length (heap init))) (heap init) (base init) 0
      = Some lines ∧
    (∃ m s', add_message ["data1"; "data2"] init = Returned m s' ∧
       print_scenario plain_repr (S (length (heap s'))) (heap s') (base s') 0 =
         Some (lines ++
               [str_mul "  " 0 +:+ "- " +:+
                "Message(" +:+ pretty (event_counter init) +:+ ", " +:+
                repr_list (plain_repr <$> ["data1"; "data2"]) +:+ ")"])) ∧
    (∃ m s', add_state "Processing" init = Returned m s' ∧
       print_scenario plain_repr (S (length (heap s'))) (heap s') (base s') 0 =
         Some (lines ++
               [str_mul "  " 0 +:+ "- " +:+
                "State(" +:+ pretty (event_counter init) +:+ ", " +:+
                "Processing" +:+ ")"])).
Proof.
  split; [exact reachable_init|]. split; [exact eq_refl|].
  exact (top_level_event_renders_last plain_repr init ["data1"; "data2"] "Processing" 0
           reachable_init eq_refl).
Defined.

(** *** Containers are in chronological order *)

Lemma increasing_nil : increasing [].
Proof. intros i j a b _ Hi. by rewrite lookup_nil in Hi. Qed.

Lemma increasing_snoc cs l :
  increasing cs → (∀ a, a ∈ cs → (a < l)%nat) → increasing (cs ++ [l]).
Proof.
  intros Hcs Hl i j a b Hij Hi Hj.
  apply lookup_snoc_Some in Hj as [[Hjlt Hj]|[-> <-]].
  - apply lookup_snoc_Some in Hi as [[_ Hi]|[-> _]]; [exact (Hcs i j a b Hij Hi Hj) | lia].
  - apply lookup_snoc_Some in Hi as [[_ Hi]|[-> _]]; [|lia].
    apply Hl, list_elem_of_lookup. eauto.
Qed.

Lemma heap_ext_inv h h' a o' :
  heap_ext h h' → (a < length h)%nat → h' !! a = Some o' →
  ∃ o, h !! a = Some o ∧ obj_ext o o'.
Proof.
  intros Hext Hlt Ha. destruct (lookup_lt_is_Some_2 _ _ Hlt) as [o Ho].
  destruct (Hext _ _ Ho) as (o2 & Ho2 & Hoo).
  pose proof (eq_trans (eq_sym Ho2) Ha) as Heq. injection Heq as ->. eauto.
Qed.

Lemma effect_increasing c eff s s' :
  wf s → has_effect c eff s s' →
  (∀ cs, container s cs → increasing cs) →
  ∀ cs, container s' cs → increasing cs.
Proof.
  intros Hwf Heff Hinv.
  assert (∀ cs, container s cs → ∀ a, a ∈ cs → (a < length (heap s))%nat) as Hbound.
  { intros cs Hcs a Ha. apply attached_lt; [done|].
    destruct Hcs as [->|(l & o & Hl & ->)]; [by left | right; eauto]. }
  assert (∀ o cs, children o = [] →
            (∃ l ob, (heap s ++ [o]) !! l = Some ob ∧ cs = children ob) →
            increasing cs) as Hsnoc.
  { intros o cs Ho (l & ob & Hl & ->).
    apply lookup_snoc_Some in Hl as [[_ Hl]|[_ <-]].
    - apply Hinv. right. eauto.
    - rewrite Ho. apply increasing_nil. }
  intros cs Hcs. destruct eff as [|o|o|o p]; simpl in Heff.
  - destruct Heff as (Hh & Hb & _). apply Hinv.
    destruct Hcs as [->|(l & ob & Hl & ->)]; [left; done | right].
    rewrite Hh in Hl. eauto.
  - destruct Heff as ((Ho & _) & Hh & Hb).
    destruct Hcs as [->|Hcs]; [rewrite Hb; apply Hinv; by left|].
    rewrite Hh in Hcs. by eapply Hsnoc.
  - destruct Heff as ((Ho & _) & Hh & Hb).
    destruct Hcs as [->|Hcs].
    + rewrite Hb. apply increasing_snoc; [apply Hinv; by left|].
      apply Hbound. by left.
    + rewrite Hh in Hcs. by eapply Hsnoc.
  - destruct Heff as ((Ho & _) & Hp & Hh & Hb).
    destruct Hcs as [->|(l & ob & Hl & ->)]; [rewrite Hb; apply Hinv; by left|].
    rewrite Hh in Hl. destruct (decide (p = l)) as [->|Hne].
    + rewrite list_lookup_alter_eq in Hl.
      destruct ((heap s ++ [o]) !! l) as [ob0|] eqn:Hl0; [|done].
      injection Hl as <-.
      apply lookup_snoc_Some in Hl0 as [[_ Hl0]|[? _]]; [|lia].
      assert (increasing (children ob0)) as Hinc by (apply Hinv; right; eauto).
      assert (∀ a, a ∈ children ob0 → (a < length (heap s))%nat) as Hb0
        by (apply Hbound; right; eauto).
      destruct ob0; simpl in *; try done; by apply increasing_snoc.
    + rewrite list_lookup_alter_ne in Hl by done. eapply Hsnoc; eauto.
Qed.

Lemma effect_id_order c eff s s' :
  wf s → has_effect c eff s s' →
  (∀ a b oa ob, heap s !! a = Some oa → heap s !! b = Some ob →
     kind_of oa = kind_of ob → (a < b)%nat → (obj_id oa < obj_id ob)%Z) →
  ∀ a b oa ob, heap s' !! a = Some oa → heap s' !! b = Some ob →
     kind_of oa = kind_of ob → (a < b)%nat → (obj_id oa < obj_id ob)%Z.
Proof.
  intros Hwf Heff Hinv a b oa ob Ha Hb Hk Hab.
  pose proof (effect_heap_ext _ _ _ _ Heff) as Hext.
  pose proof (lookup_lt_Some _ _ _ Hb) as Hblt.
  destruct (decide (b < length (heap s))%nat) as [Hlt|Hge].
  - destruct (heap_ext_inv _ _ _ _ Hext Hlt Hb) as (ob0 & Hb0 & Hbb).
    destruct (heap_ext_inv _ _ a _ Hext ltac:(lia) Ha) as (oa0 & Ha0 & Haa).
    rewrite (obj_ext_id _ _ Haa), (obj_ext_id _ _ Hbb).
    apply (Hinv a b); try done.
    by rewrite <- (obj_ext_kind _ _ Haa), <- (obj_ext_kind _ _ Hbb).
  - assert (∀ o, created c o s s' → heap s' !! length (heap s) = Some o →
              (length (heap s') ≤ S (length (heap s)))%nat →
              (obj_id oa < obj_id ob)%Z) as Hnew.
    { intros o (_ & _ & Hid & _) Ho Hlen.
      assert (b = length (heap s)) as -> by lia.
      pose proof (eq_trans (eq_sym Ho) Hb) as Heq. injection Heq as ->.
      destruct (heap_ext_inv _ _ a _ Hext ltac:(lia) Ha) as (oa0 & Ha0 & Haa).
      rewrite (obj_ext_id _ _ Haa), Hid.
      assert (obj_id oa0 ∈ ids_of (kind_of ob) (heap s)) as Hin.
      { apply elem_of_ids_of. exists a, oa0. split_and!; try done.
        by rewrite <- (obj_ext_kind _ _ Haa). }
      destruct (wf_ids _ Hwf (kind_of ob)) as [_ Hids]. rewrite Hids in Hin.
      apply elem_of_seqZ in Hin. lia. }
    destruct eff as [|o|o|o p]; simpl in Heff.
    + destruct Heff as (Hh & _). rewrite Hh in Hblt. lia.
    + destruct Heff as (Hcr & Hh & _). apply (Hnew o Hcr).
      * by rewrite Hh, list_lookup_middle.
      * rewrite Hh, length_app. simpl. lia.
    + destruct Heff as (Hcr & Hh & _). apply (Hnew o Hcr).
      * by rewrite Hh, list_lookup_middle.
      * rewrite Hh, length_app. simpl. lia.
    + destruct Heff as (Hcr & Hp & Hh & _). apply (Hnew o Hcr).
      * rewrite Hh. by apply lookup_attach_new.
      * rewrite Hh, length_attach. lia.
Qed.

(** X11.  Containers are in chronological order.  After any sequence of
    calls, in the root sequence, in every group's items and in every
    fragment's groups, a child that comes later was created later; and
    among nodes of one kind (events, fragments, groups) the one created
    later has the larger id.  So along any container the ids of the
    events increase, and so do the ids of the fragments and of the
    groups. *)
Theorem containers_chronological (ops : list op) :
  let s := run ops init in
  (∀ cs, container s cs → increasing cs) ∧
  (∀ a b oa ob, heap s !! a = Some oa → heap s !! b = Some ob →
     kind_of oa = kind_of ob → (a < b)%nat → (obj_id oa < obj_id ob)%Z) ∧
  (∀ cs i j a b oa ob,
     container s cs → (i < j)%nat → cs !! i = Some a → cs !! j = Some b →
     heap s !! a = Some oa → heap s !! b = Some ob → kind_of oa = kind_of ob →
     (obj_id oa < obj_id ob)%Z).
Proof.
  intros s.
  assert ((∀ cs, container s cs → increasing cs) ∧
          (∀ a b oa ob, heap s !! a = Some oa → heap s !! b = Some ob →
             kind_of oa = kind_of ob → (a < b)%nat → (obj_id oa < obj_id ob)%Z))
    as [Hinc Hid].
  { unfold s. clear s. induction ops as [|c ops [IH1 IH2]] using rev_ind.
    - split.
      + intros cs [->|(l & o & Hl & _)]; [apply increasing_nil|].
        apply lookup_lt_Some in Hl. simpl in Hl. lia.
      + intros a b oa ob Ha. apply lookup_lt_Some in Ha. simpl in Ha. lia.
    - rewrite run_snoc. assert (wf (run ops init)) as Hwf by apply run_wf, wf_init.
      destruct (exec_effect c _ Hwf) as [eff Heff].
      split; [by eapply effect_increasing | by eapply effect_id_order]. }
  split_and!; try done.
  intros cs i j a b oa ob Hcs Hij Hi Hj Ha Hb Hk.
  apply (Hid a b); try done. exact (Hinc cs Hcs i j a b Hij Hi Hj).
Qed.

(** *** The raw dump *)

Section RawDump.
Variable repr_str : string → string.

Lemma repr_mono_le fuel fuel' h l r :
  (fuel ≤ fuel')%nat →
  repr repr_str fuel h l = Some r → repr repr_str fuel' h l = Some r.
Proof.
  induction 1 as [|fuel' _ IH]; [done|].
  intros H. by apply repr_mono, IH.
Qed.

(** [repr] returns on a typed store, given fuel for the distance between
    the object and the end of the store. *)
Lemma repr_total h :
  heap_typed h →
  ∀ fuel (l : loc), (l < length h)%nat → (length h < l + fuel)%nat →
    is_Some (repr repr_str fuel h l).
Proof.
  intros Hh. induction fuel as [|fuel IH]; intros l Hl Hfuel; [lia|].
  cbn [repr]. destruct (h !! l) as [o|] eqn:Ho;
    [|apply lookup_ge_None in Ho; lia].
  pose proof (Hh l o Ho) as Hcs.
  destruct o as [i x|i x|i n gd its|i n gs]; [done | done | |].
  - assert (is_Some (mapM (repr repr_str fuel h) its)) as [rs ->]; [|done].
    apply mapM_is_Some. eapply Forall_impl; [exact Hcs|].
    intros c [Hlc (oc & Hc & _)]. unfold compose.
    apply IH; [by eapply lookup_lt_Some | lia].
  - assert (is_Some (mapM (repr repr_str fuel h) gs)) as [rs ->]; [|done].
    apply mapM_is_Some. eapply Forall_impl; [exact Hcs|].
    intros c [Hlc (? & ? & ? & ? & Hc)]. unfold compose.
    apply IH; [by eapply lookup_lt_Some | lia].
Qed.
End RawDump.

(** X12.  The raw dump never fails on a model the builder has built:
    after any sequence of calls [repr] returns for every object of the
    store, and so does [str(builder.base)], the text of
    [print(builder.base)]; no [__repr__] recurses deeper than the store
    has objects, and the text does not depend on the fuel of the model
    beyond that. *)
Theorem raw_dump_defined (repr_str : string → string) (ops : list op) :
  let s := run ops init in
  (∀ l, (l < length (heap s))%nat →
     ∃ r, ∀ fuel, (length (heap s) < fuel)%nat →
       repr repr_str fuel (heap s) l = Some r) ∧
  ∃ out, ∀ fuel, (length (heap s) < fuel)%nat →
    str_nodes repr_str fuel (heap s) (base s) = Some out.
Proof.
  intros s. assert (wf s) as Hwf by apply run_wf, wf_init.
  assert (∀ l, (l < length (heap s))%nat →
     ∃ r, ∀ fuel, (length (heap s) < fuel)%nat →
       repr repr_str fuel (heap s) l = Some r) as Hrepr.
  { intros l Hl.
    destruct (repr_total repr_str (heap s) (wf_heap _ Hwf) (S (length (heap s))) l)
      as [r Hr]; [done | lia |].
    exists r. intros fuel Hfuel. eapply repr_mono_le; [|exact Hr]. lia. }
  split; [done|].
  assert (is_Some (mapM (repr repr_str (S (length (heap s))) (heap s)) (base s)))
    as [rs Hrs].
  { apply mapM_is_Some. eapply Forall_impl; [apply (wf_base _ Hwf)|].
    intros l (o & Hl & _). unfold compose.
    apply repr_total; [apply Hwf | by eapply lookup_lt_Some | lia]. }
  exists (repr_list rs). intros fuel Hfuel. unfold str_nodes.
  apply fmap_Some. exists rs. split; [|done].
  eapply mapM_mono; [|exact Hrs].
  intros l r Hr. eapply repr_mono_le; [|exact Hr]. lia.
Qed.

(** *** Going on after an error *)

(** X13.  The builder stays usable after NoActiveGroup.  In a reachable
    state inside a fragment with no group, [add_message(items)] raises
    NoActiveGroup; a following [enter_group(guard); add_message(items)]
    returns, the message is the only item of the new group, and it
    carries the event id after the one the failed call has used up. *)
Theorem recovery_after_no_active_group (s : ScenarioBuilder) (f : loc)
    (guard : option string) (exchanged_items : list string) :
  reachable s →
  current_fragment s = Some f →
  current_group s = None →
  ∃ e s1 g s2 m s3,
    add_message exchanged_items s = Raised e s1 ∧ NoActiveGroup e ∧
    enter_group guard s1 = Returned g s2 ∧
    add_message exchanged_items s2 = Returned m s3 ∧
    heap s3 !! g =
      Some (Group (group_counter s) ("Group " +:+ pretty (group_counter s)) guard [m]) ∧
    heap s3 !! m = Some (Message (event_counter s + 1) exchanged_items) ∧
    heap s3 !! length (heap s) = Some (Message (event_counter s) exchanged_items) ∧
    ¬ attached s3 (length (heap s)).
Proof.
  intros Hwf%reachable_wf Hcf Hcg. pose proof (wf_ctx _ Hwf) as Hctx.
  rewrite Hcf, Hcg in Hctx. destruct Hctx as (i & n & gs & Hf).
  pose proof (lookup_lt_Some _ _ _ Hf) as Hlt.
  (* the refused call *)
  pose proof (add_event_spec (Message (event_counter s) exchanged_items) s (wf_ctx _ Hwf))
    as E1.
  pose proof (wf_add_event (Message (event_counter s) exchanged_items) s Hwf eq_refl eq_refl)
    as Hwf1.
  rewrite E1 in Hwf1. cbn zeta in E1, Hwf1. rewrite Hcf, Hcg in E1, Hwf1.
  cbn [outcome_state] in Hwf1.
  (* the group *)
  pose proof (enter_group_spec guard _ (wf_ctx _ Hwf1)) as E2.
  pose proof (wf_enter_group guard _ Hwf1) as Hwf2.
  rewrite E2 in Hwf2. cbn zeta in E2, Hwf2. fields. cbn [outcome_state] in Hwf2.
  (* the second attempt *)
  pose proof (add_event_spec (Message (event_counter s + 1) exchanged_items) _
                (wf_ctx _ Hwf2)) as E3.
  pose proof (wf_add_event (Message (event_counter s + 1) exchanged_items) _ Hwf2
                eq_refl eq_refl) as Hwf3.
  rewrite E3 in Hwf3. cbn zeta in E3, Hwf3. fields. cbn [outcome_state] in Hwf3.
  eexists _, _, _, _, _, _.
  split; [exact E1|]. split; [by left|]. split; [exact E2|]. split; [exact E3|].
  assert (¬ attached s (length (heap s))) as Hfresh.
  { intros Hatt%attached_lt; [lia | done]. }
  revert Hwf3. fields.
  set (M1 := Message (event_counter s) exchanged_items).
  set (G := Group (group_counter s) _ guard []).
  set (h1 := heap s ++ [M1]).
  assert (h1 !! f = Some (Fragment i n gs)) as Hf1 by by apply lookup_snoc_lt.
  assert (h1 !! length (heap s) = Some M1) as Hm1
    by (unfold h1; by rewrite list_lookup_middle).
  assert (length h1 = S (length (heap s))) as Hlen1
    by (unfold h1; rewrite length_app; simpl; lia).
  set (h2 := alter (append_child (length h1)) f (h1 ++ [G])).
  assert (h2 !! length h1 = Some G) as Hg2 by (apply lookup_attach_new; lia).
  assert (h2 !! length (heap s) = Some M1) as Hm2
    by (apply lookup_attach_other; [lia | done]).
  assert (length h2 = S (length h1)) as Hlen2 by apply length_attach.
  intros Hwf3. split_and!.
  - exact (lookup_attach_parent h2 _ _ _ Hg2).
  - apply lookup_attach_new. lia.
  - apply lookup_attach_other; [lia | done].
  - intros Hatt.
    (* attached only since the failed call, which attached nothing *)
    assert (attached
              {| heap := h2; base := base s; current_fragment := Some f;
                 current_group := Some (length h1); state_stack := state_stack s;
                 event_counter := event_counter s + 1;
                 group_counter := group_counter s + 1;
                 fragment_counter := fragment_counter s |} (length (heap s))) as Hatt2.
    { pose proof (exec_attached_old (AddMessage exchanged_items) _ (length (heap s)) Hwf2)
        as Hold.
      rewrite exec_eq in Hold. fields.
      change (add_message exchanged_items ?x) with
        (add_event (Message (event_counter x) exchanged_items) x) in Hold.
      fields. rewrite E3 in Hold. cbn [outcome_state] in Hold.
      apply Hold; [|exact Hatt].
      cbn [heap]. rewrite ?length_attach, ?length_app. simpl. lia. }
    assert (attached
              {| heap := h1; base := base s; current_fragment := Some f;
                 current_group := None; state_stack := state_stack s;
                 event_counter := event_counter s + 1;
                 group_counter := group_counter s;
                 fragment_counter := fragment_counter s |} (length (heap s))) as Hatt1.
    { pose proof (exec_attached_old (EnterGroup guard) _ (length (heap s)) Hwf1) as Hold.
      rewrite exec_eq, E2 in Hold. cbn [outcome_state] in Hold. fields.
      apply Hold; [|exact Hatt2].
      cbn [heap]. rewrite ?length_attach, ?length_app. simpl. lia. }
    eapply Hfresh, (attached_create s); [| | | exact Hatt1]; done.
Qed.

Lemma recovery_after_no_active_group_witness :
  reachable in_fragment_state ∧
  current_fragment in_fragment_state = Some 1%nat ∧
  current_group in_fragment_state = None ∧
  ∃ e s1 g s2 m s3,
    add_message ["data5"] in_fragment_state = Raised e s1 ∧ NoActiveGroup e ∧
    enter_group (Some "x > 5") s1 = Returned g s2 ∧
    add_message ["data5"] s2 = Returned m s3 ∧
    heap s3 !! g =
      Some (Group (group_counter in_fragment_state)
              ("Group " +:+ pretty (group_counter in_fragment_state)) (Some "x > 5") [m]) ∧
    heap s3 !! m = Some (Message (event_counter in_fragment_state + 1) ["data5"]) ∧
    heap s3 !! length (heap in_fragment_state) =
      Some (Message (event_counter in_fragment_state) ["data5"]) ∧
    ¬ attached s3 (length (heap in_fragment_state)).
Proof.
  assert (reachable in_fragment_state) as Hs
    by (exists [AddMessage ["data1"; "data2"]; EnterFragment]; exact eq_refl).
  split; [exact Hs|]. split; [exact eq_refl|]. split; [exact eq_refl|].
  exact (recovery_after_no_active_group in_fragment_state 1%nat (Some "x > 5") ["data5"]
           Hs eq_refl eq_refl).
Defined.

(** X14.  A fragment without groups renders as its header line alone.
    In a reachable state with no active fragment [enter_fragment()]
    returns, and rendering the new root sequence gives the lines rendered
    before followed by the header of the new, still empty, fragment:
    the renderer does not rely on a fragment having a group. *)
Theorem empty_fragment_renders_header (repr_str : string → string) (s : ScenarioBuilder)
    (indent : nat) :
  reachable s →
  current_fragment s = None →
  ∃ lines f s',
    print_scenario repr_str (S (length (heap s))) (heap s) (base s) indent = Some lines ∧
    enter_fragment s = Returned f s' ∧
    print_scenario repr_str (S (length (heap s'))) (heap s') (base s') indent =
      Some (lines ++
            [str_mul "  " indent +:+ "- " +:+
             ("Fragment " +:+ pretty (fragment_counter s)) +:+ " (Fragment):"]).
Proof.
  intros Hs Hcf. pose proof (reachable_wf _ Hs) as Hwf.
  destruct (print_scenario_reachable repr_str s indent Hs) as [lines Hlines].
  exists lines. rewrite enter_fragment_spec by apply Hwf. cbn zeta. rewrite Hcf.
  eexists _, _. split; [done|]. split; [done|]. fields.
  apply print_scenario_app.
  - rewrite print_scenario_snoc; [| apply Hwf | apply Hwf].
    eapply print_scenario_mono_le; [|exact Hlines].
    rewrite length_app. simpl. lia.
  - cbn [print_scenario mapM]. by rewrite list_lookup_middle.
Qed.

Lemma empty_fragment_renders_header_witness :
  reachable init ∧
  current_fragment init = None ∧
  ∃ lines f s',
    print_scenario plain_repr (S (length (heap init))) (heap init) (base init) 0
      = Some lines ∧
    enter_fragment init = Returned f s' ∧
    print_scenario plain_repr (S (length (heap s'))) (heap s') (base s') 0 =
      Some (lines ++
            [str_mul "  " 0 +:+ "- " +:+
             ("Fragment " +:+ pretty (fragment_counter init)) +:+ " (Fragment):"]).
Proof.
  split; [exact reachable_init|]. split; [exact eq_refl|].
  exact (empty_fragment_renders_header plain_repr init 0 reachable_init eq_refl).
Defined.
